(** * SimpleVector: a shallow embedding of [simple_vector.h]

    The header defines two class templates: [RawMemory<T>], the owner of a
    block of raw storage, and [SimpleVector<T>], a resizable array that
    constructs and destroys elements inside the block its [RawMemory] owns.

    The embedding keeps what the C++ text distinguishes:
    - a slot of a block is raw storage or holds a live object;
    - blocks live in a heap indexed by their address, a [RawMemory] holds a
      pointer into it, so two [RawMemory] objects can name the same block;
    - [SimpleVector] objects live in a store indexed by their address, so
      [this != &rhs] is a comparison of addresses;
    - constructors and assignments of the element type may throw, the
      library algorithms clean up as the standard prescribes, and automatic
      objects are destroyed on both exits of their scope;
    - what C++ leaves undefined (reading raw storage, writing through a null
      or dangling pointer, destroying what is not alive) is an outcome of its
      own, [UB].

    [size_t] is modelled by [nat]: the counters of a vector are bounded by the
    number of slots the allocator handed out, far from [SIZE_MAX].  Where the
    source guards a subtraction by a comparison the embedding writes both;
    the three it does not guard ([--size_], [size_ - dist_to_pos] and
    [end() - 1]) end in [UB] where the C++ would wrap, since every access
    that follows a wrapped counter is out of bounds.  [assert] is compiled
    out ([NDEBUG]) and does not appear. *)

From stdpp Require Import base option list gmap.

(** ** The element type [T]

    The template parameter is a bundle of capabilities.  A copy or a move
    yields an object equal to its source; what differs between element types
    is which operations throw, what a moved-from object looks like, and the
    two traits the [if constexpr] tests read. *)

Class Element (T : Type) := {
  (** [T()] *)
  value_init : T;
  value_init_throws : bool;
  (** [T(const T&)] throws on this source *)
  copy_throws : T → bool;
  (** [T(T&&)] throws on this source *)
  move_throws : T → bool;
  (** [operator=(const T&)] throws on this source *)
  copy_assign_throws : T → bool;
  (** [operator=(T&&)] throws on this source *)
  move_assign_throws : T → bool;
  (** the state a move leaves its source in *)
  moved_from : T → T;
  (** [std::is_copy_constructible_v<T>] *)
  is_copy_constructible : bool;
  (** [std::is_nothrow_move_constructible_v<T>] *)
  is_nothrow_move_constructible : bool;
  (** [noexcept] on the move constructor is a promise *)
  nothrow_move_sound :
    is_nothrow_move_constructible = true → ∀ v, move_throws v = false
}.

(** ** Pointers, slots, events *)

(** A [T*]: null, or the address of a block and an offset counted in
    elements. *)
Inductive ptr :=
  | nullptr
  | Ptr (b : nat) (off : nat).

Global Instance ptr_eq_dec : EqDecision ptr.
Proof. solve_decision. Defined.

(** [p + k] *)
Definition ptr_add (p : ptr) (k : nat) : ptr :=
  match p with
  | nullptr => nullptr
  | Ptr b off => Ptr b (off + k)
  end.

Infix "+ₚ" := ptr_add (at level 50, left associativity).

(** One element-sized cell of a block. *)
Inductive slot (T : Type) :=
  | Raw
  | Obj (v : T).
Arguments Raw {T}.
Arguments Obj {T} v.

(** What the container did to the cells of its blocks, in program order. *)
Inductive event :=
  | Construct (p : ptr)
  | Destroy (p : ptr)
  | Assign (p : ptr).

Global Instance event_eq_dec : EqDecision event.
Proof. solve_decision. Defined.

(** ** The two classes *)

Record RawMemory := mkRaw {
  buffer_ : ptr;
  capacity_ : nat
}.

Record SimpleVector := mkVec {
  data_ : RawMemory;
  size_ : nat
}.

Global Instance RawMemory_eq_dec : EqDecision RawMemory.
Proof. solve_decision. Defined.

Global Instance SimpleVector_eq_dec : EqDecision SimpleVector.
Proof. solve_decision. Defined.

(** ** Machine state and the monad of the embedding *)

Record state (T : Type) := mkState {
  (** blocks obtained from [operator new], by address *)
  heap : gmap nat (list (slot T));
  (** number of element slots the allocator can still hand out *)
  avail : nat;
  (** the [SimpleVector] objects, by address *)
  vecs : gmap nat SimpleVector;
  (** trace of element operations, oldest first *)
  log : list event
}.
Arguments mkState {T}.
Arguments heap {T}.
Arguments avail {T}.
Arguments vecs {T}.
Arguments log {T}.

Inductive outcome (A : Type) :=
  | Ok (a : A)
  | Throw
  | UB.
Arguments Ok {A} a.
Arguments Throw {A}.
Arguments UB {A}.

Definition M (T A : Type) : Type := state T → outcome A * state T.

Definition ret {T A} (a : A) : M T A := λ st, (Ok a, st).

Definition bind {T A B} (m : M T A) (k : A → M T B) : M T B := λ st,
  match m st with
  | (Ok a, st') => k a st'
  | (Throw, st') => (Throw, st')
  | (UB, st') => (UB, st')
  end.

(** [throw] *)
Definition throw {T A} : M T A := λ st, (Throw, st).

Definition undefined {T A} : M T A := λ st, (UB, st).

(** [try { body } catch (...) { handler; throw; }], and the unwinding of a
    scope whose automatic objects [handler] destroys. *)
Definition unwinding {T A} (handler : M T unit) (body : M T A) : M T A := λ st,
  match body st with
  | (Throw, st') =>
      match handler st' with
      | (Ok _, st'') => (Throw, st'')
      | (Throw, st'') => (Throw, st'')
      | (UB, st'') => (UB, st'')
      end
  | r => r
  end.

Global Instance nat_gt_dec (x y : nat) : Decision (x > y) := decide (y < x).

Declare Scope cpp_scope.
Delimit Scope cpp_scope with cpp.
Notation "x ← m ; k" := (bind m (λ x, k))
  (at level 20, m at level 100, k at level 200, only parsing) : cpp_scope.
Notation "m ;; k" := (bind m (λ _, k))
  (at level 100, k at level 200, right associativity) : cpp_scope.
Open Scope cpp_scope.

(** The arguments a caller hands to a constructor call [T(args...)]: an
    lvalue to copy, an rvalue to move from, or anything else, of which the
    embedding keeps what the constructor does with it. *)
Inductive ctor_args (T : Type) :=
  | ByCopy (v : T)
  | ByMove (v : T)
  | ByArgs (r : option T).
Arguments ByCopy {T} v.
Arguments ByMove {T} v.
Arguments ByArgs {T} r.

(** ** Cells, placement construction, destruction, assignment *)

Section Primitives.
Context {T : Type} `{Element T}.

Definition set_heap (h : gmap nat (list (slot T))) (st : state T) : state T :=
  mkState h (avail st) (vecs st) (log st).

Definition set_vecs (vs : gmap nat SimpleVector) (st : state T) : state T :=
  mkState (heap st) (avail st) vs (log st).

(** Append an event to the trace. *)
Definition emit (e : event) : M T unit := λ st,
  (Ok tt, mkState (heap st) (avail st) (vecs st) (log st ++ [e])).

(** The cell a pointer designates; dereferencing a null pointer, a pointer
    into a released block or past the end of its block is undefined. *)
Definition slot_at (p : ptr) : M T (slot T) := λ st,
  match p with
  | nullptr => (UB, st)
  | Ptr b off =>
      match heap st !! b with
      | Some blk =>
          match blk !! off with
          | Some s => (Ok s, st)
          | None => (UB, st)
          end
      | None => (UB, st)
      end
  end.

Definition set_slot (p : ptr) (s : slot T) : M T unit := λ st,
  match p with
  | nullptr => (UB, st)
  | Ptr b off =>
      match heap st !! b with
      | Some blk =>
          if decide (off < length blk)
          then (Ok tt, set_heap (<[b := <[off := s]> blk]> (heap st)) st)
          else (UB, st)
      | None => (UB, st)
      end
  end.

(** Value of the live object at [p]. *)
Definition read (p : ptr) : M T T :=
  s ← slot_at p;
  match s with
  | Obj v => ret v
  | Raw => undefined
  end.

(** [::new (p) T(...)] once the constructor has produced [v]. *)
Definition construct (p : ptr) (v : T) : M T unit :=
  set_slot p (Obj v);; emit (Construct p).

(** [std::destroy_at(p)] *)
Definition destroy_at (p : ptr) : M T unit :=
  _ ← read p; set_slot p Raw;; emit (Destroy p).

(** The object at [p] takes the value [v] through an assignment operator. *)
Definition assign (p : ptr) (v : T) : M T unit :=
  _ ← read p; set_slot p (Obj v);; emit (Assign p).

(** [::new (p) T()] *)
Definition value_construct (p : ptr) : M T unit :=
  if value_init_throws then throw else construct p value_init.

(** [::new (p) T(q[0])] *)
Definition copy_construct (p q : ptr) : M T unit :=
  v ← read q;
  if copy_throws v then throw else construct p v.

(** [::new (p) T(std::move(q[0]))] *)
Definition move_construct (p q : ptr) : M T unit :=
  v ← read q;
  if move_throws v then throw
  else construct p v;; set_slot q (Obj (moved_from v)).

(** [p[0] = q[0]] *)
Definition copy_assign (p q : ptr) : M T unit :=
  v ← read q;
  if copy_assign_throws v then throw else assign p v.

(** [p[0] = std::move(q[0])] *)
Definition move_assign (p q : ptr) : M T unit :=
  v ← read q;
  if move_assign_throws v then throw
  else assign p v;; set_slot q (Obj (moved_from v)).

(** The object [T(args...)] builds, if the constructor returns. *)
Definition constructed (a : ctor_args T) : option T :=
  match a with
  | ByCopy v => if copy_throws v then None else Some v
  | ByMove v => if move_throws v then None else Some v
  | ByArgs r => r
  end.

(** [::new (p) T(std::forward<Args>(args)...)] *)
Definition construct_from (p : ptr) (a : ctor_args T) : M T unit :=
  match constructed a with
  | Some v => construct p v
  | None => throw
  end.

(** ** Pointer arithmetic that can fail *)

(** [p - 1] *)
Definition ptr_dec (p : ptr) : M T ptr :=
  match p with
  | Ptr b (S off) => ret (Ptr b off)
  | _ => undefined
  end.

(** [std::distance(first, last)] for pointers: both must point into the
    same block, [first] not after [last]. *)
Definition distance (first last : ptr) : M T nat :=
  match first, last with
  | nullptr, nullptr => ret 0
  | Ptr b i, Ptr b' j =>
      if decide (b = b' ∧ i ≤ j) then ret (j - i) else undefined
  | _, _ => undefined
  end.

(** ** The algorithms of [<memory>] and [<algorithm>] the header calls *)

(** [std::destroy_n(first, n)] *)
Fixpoint destroy_n (first : ptr) (n : nat) : M T unit :=
  match n with
  | 0 => ret tt
  | S n' => destroy_at first;; destroy_n (first +ₚ 1) n'
  end.

(** The loop of [std::uninitialized_copy_n]: [done] objects stand at
    [d_first] already; if a constructor throws they are destroyed and the
    exception goes on. *)
Fixpoint uninitialized_copy_from (d_first : ptr) (done : nat)
    (first : ptr) (n : nat) : M T unit :=
  match n with
  | 0 => ret tt
  | S n' =>
      unwinding (destroy_n d_first done)
        (copy_construct (d_first +ₚ done) first);;
      uninitialized_copy_from d_first (S done) (first +ₚ 1) n'
  end.

(** [std::uninitialized_copy_n(first, n, d_first)] *)
Definition uninitialized_copy_n (first : ptr) (n : nat) (d_first : ptr)
    : M T unit :=
  uninitialized_copy_from d_first 0 first n.

Fixpoint uninitialized_move_from (d_first : ptr) (done : nat)
    (first : ptr) (n : nat) : M T unit :=
  match n with
  | 0 => ret tt
  | S n' =>
      unwinding (destroy_n d_first done)
        (move_construct (d_first +ₚ done) first);;
      uninitialized_move_from d_first (S done) (first +ₚ 1) n'
  end.

(** [std::uninitialized_move_n(first, n, d_first)] *)
Definition uninitialized_move_n (first : ptr) (n : nat) (d_first : ptr)
    : M T unit :=
  uninitialized_move_from d_first 0 first n.

Fixpoint uninitialized_value_construct_from (first : ptr) (done : nat)
    (n : nat) : M T unit :=
  match n with
  | 0 => ret tt
  | S n' =>
      unwinding (destroy_n first done) (value_construct (first +ₚ done));;
      uninitialized_value_construct_from first (S done) n'
  end.

(** [std::uninitialized_value_construct_n(first, n)] *)
Definition uninitialized_value_construct_n (first : ptr) (n : nat)
    : M T unit :=
  uninitialized_value_construct_from first 0 n.

(** [while (first != last) { --d_last; --last; d_last[0] = std::move(last[0]); }] with [n]
    the number of elements between [first] and [last]. *)
Fixpoint move_backward_loop (last d_last : ptr) (n : nat) : M T unit :=
  match n with
  | 0 => ret tt
  | S n' =>
      last' ← ptr_dec last;
      d_last' ← ptr_dec d_last;
      move_assign d_last' last';;
      move_backward_loop last' d_last' n'
  end.

(** [std::move_backward(first, last, d_last)] *)
Definition move_backward (first last d_last : ptr) : M T unit :=
  n ← distance first last;
  move_backward_loop last d_last n.

(** [for (; first != last; ++d_first, ++first) d_first[0] = std::move(first[0]);] *)
Fixpoint move_loop (first d_first : ptr) (n : nat) : M T unit :=
  match n with
  | 0 => ret tt
  | S n' =>
      move_assign d_first first;;
      move_loop (first +ₚ 1) (d_first +ₚ 1) n'
  end.

(** [std::move(first, last, d_first)], the algorithm *)
Definition std_move (first last d_first : ptr) : M T unit :=
  n ← distance first last;
  move_loop first d_first n.

End Primitives.

(** ** [class RawMemory] *)

Section RawMemoryClass.
Context {T : Type} `{Element T}.

(** [operator new(n * sizeof(T))]: a fresh block of [n] raw cells, or
    [std::bad_alloc] when the allocator cannot provide them. *)
Definition operator_new (n : nat) : M T ptr := λ st,
  if decide (n ≤ avail st) then
    let b := fresh (dom (heap st)) in
    (Ok (Ptr b 0),
     mkState (<[b := replicate n Raw]> (heap st)) (avail st - n)
             (vecs st) (log st))
  else (Throw, st).

(** [operator delete(p)]: nothing for a null pointer; otherwise [p] must be
    the address of a block that is still allocated. *)
Definition operator_delete (p : ptr) : M T unit := λ st,
  match p with
  | nullptr => (Ok tt, st)
  | Ptr b 0 =>
      match heap st !! b with
      | Some blk =>
          (Ok tt, mkState (delete b (heap st)) (avail st + length blk)
                          (vecs st) (log st))
      | None => (UB, st)
      end
  | Ptr _ (S _) => (UB, st)
  end.

(** [static T* Allocate(size_t n)] *)
Definition Allocate (n : nat) : M T ptr :=
  if decide (n ≠ 0) then operator_new n else ret nullptr.

(** [static void Deallocate(T* buf) noexcept] *)
Definition Deallocate (buf : ptr) : M T unit :=
  operator_delete buf.

(** [RawMemory() = default], with the default member initializers. *)
Definition RawMemory_default : RawMemory :=
  mkRaw nullptr 0.

(** [explicit RawMemory(size_t capacity)] *)
Definition RawMemory_sized (capacity : nat) : M T RawMemory :=
  b ← Allocate capacity;
  ret (mkRaw b capacity).

(** [RawMemory(RawMemory&& other) noexcept]: the mem-initializer list names
    [capacity_] only, so [buffer_] takes its default member initializer.
    Returns the new object; [other] is not written.  (An exception that
    escapes a [noexcept] function ends the program; the embedding lets it
    show as [Throw].) *)
Definition RawMemory_move (other : RawMemory) : M T RawMemory :=
  let this := mkRaw nullptr (capacity_ other) in
  uninitialized_move_n (buffer_ other) (capacity_ this) (buffer_ this);;
  ret this.

(** [RawMemory& operator=(RawMemory&& rhs) noexcept].  Returns the
    assigned-to object; [rhs] is not written. *)
Definition RawMemory_move_assign (this rhs : RawMemory) : M T RawMemory :=
  let this := mkRaw (buffer_ this) (capacity_ rhs) in
  uninitialized_move_n (buffer_ rhs) (capacity_ this) (buffer_ this);;
  ret this.

(** [~RawMemory()] *)
Definition RawMemory_dtor (this : RawMemory) : M T unit :=
  Deallocate (buffer_ this).

(** [T* operator+(size_t offset) noexcept] *)
Definition RawMemory_plus (this : RawMemory) (offset : nat) : ptr :=
  buffer_ this +ₚ offset.

(** [T& operator[](size_t index) noexcept], the reference as a pointer *)
Definition RawMemory_index (this : RawMemory) (index : nat) : ptr :=
  buffer_ this +ₚ index.

(** [void Swap(RawMemory& other) noexcept]: both objects after the call. *)
Definition RawMemory_Swap (this other : RawMemory) : RawMemory * RawMemory :=
  (mkRaw (buffer_ other) (capacity_ other),
   mkRaw (buffer_ this) (capacity_ this)).

(** [T* GetAddress() noexcept] *)
Definition GetAddress (this : RawMemory) : ptr := buffer_ this.

(** [size_t Capacity() const] *)
Definition RawMemory_Capacity (this : RawMemory) : nat := capacity_ this.

End RawMemoryClass.

(** ** [class SimpleVector] *)

Section SimpleVectorClass.
Context {T : Type} `{Element T}.

(** The object at address [this]; using an address that holds no
    [SimpleVector] is undefined. *)
Definition load (this : nat) : M T SimpleVector := λ st,
  match vecs st !! this with
  | Some v => (Ok v, st)
  | None => (UB, st)
  end.

(** Write the members of the object at [this]. *)
Definition store (this : nat) (v : SimpleVector) : M T unit := λ st,
  (Ok tt, set_vecs (<[this := v]> (vecs st)) st).

(** The storage of an object whose lifetime ended goes away. *)
Definition release (this : nat) : M T unit := λ st,
  (Ok tt, set_vecs (delete this (vecs st)) st).

(** Address of a new automatic object. *)
Definition automatic : M T nat := λ st,
  (Ok (fresh (dom (vecs st))), st).

(** [iterator begin() noexcept], also [cbegin] *)
Definition begin_ (v : SimpleVector) : ptr := GetAddress (data_ v).

(** [iterator end() noexcept], also [cend] *)
Definition end_ (v : SimpleVector) : ptr := RawMemory_plus (data_ v) (size_ v).

(** [size_t Size() const noexcept] *)
Definition Size (v : SimpleVector) : nat := size_ v.

(** [size_t Capacity() const noexcept] *)
Definition Capacity (v : SimpleVector) : nat := RawMemory_Capacity (data_ v).

(** [SimpleVector() noexcept = default] *)
Definition SimpleVector_default (this : nat) : M T unit :=
  store this (mkVec RawMemory_default 0).

(** The members of [this] are destroyed when a constructor body throws or
    when the destructor body is over: [~RawMemory] on [data_]. *)
Definition destroy_members (this : nat) : M T unit :=
  v ← load this;
  RawMemory_dtor (data_ v);;
  release this.

(** [explicit SimpleVector(size_t size)] *)
Definition SimpleVector_sized (this : nat) (size : nat) : M T unit :=
  d ← RawMemory_sized size;
  store this (mkVec d size);;
  unwinding (destroy_members this)
    (uninitialized_value_construct_n (GetAddress d) size).

(** [SimpleVector(const SimpleVector& other)] *)
Definition SimpleVector_copy (this other : nat) : M T unit :=
  o ← load other;
  d ← RawMemory_sized (size_ o);
  store this (mkVec d (size_ o));;
  unwinding (destroy_members this)
    (uninitialized_copy_n (GetAddress (data_ o)) (size_ o) (GetAddress d)).

(** [void Swap(SimpleVector& other) noexcept] *)
Definition Swap (this other : nat) : M T unit :=
  v ← load this;
  o ← load other;
  let '(d, od) := RawMemory_Swap (data_ v) (data_ o) in
  store this (mkVec d (size_ o));;
  store other (mkVec od (size_ v)).

(** [SimpleVector(SimpleVector&& other) noexcept] *)
Definition SimpleVector_move (this other : nat) : M T unit :=
  store this (mkVec RawMemory_default 0);;
  Swap this other.

(** [~SimpleVector()], then the destruction of the members. *)
Definition SimpleVector_dtor (this : nat) : M T unit :=
  v ← load this;
  destroy_n (GetAddress (data_ v)) (size_ v);;
  destroy_members this.

(** [for (size_t i = 0; i < n; ++i) data_[i] = rhs.data_[i];], the loop
    variable counting up from [i]. *)
Fixpoint assign_loop (d rd : RawMemory) (i n : nat) : M T unit :=
  match n with
  | 0 => ret tt
  | S n' =>
      copy_assign (RawMemory_index d i) (RawMemory_index rd i);;
      assign_loop d rd (S i) n'
  end.

(** [SimpleVector& operator=(const SimpleVector& rhs)] *)
Definition operator_assign (this rhs : nat) : M T unit :=
  if decide (this ≠ rhs) then
    v ← load this;
    r ← load rhs;
    if decide (size_ r > RawMemory_Capacity (data_ v)) then
      rhs_copy ← automatic;
      SimpleVector_copy rhs_copy rhs;;
      Swap this rhs_copy;;
      SimpleVector_dtor rhs_copy
    else
      (if decide (size_ v > size_ r) then
         destroy_n (GetAddress (data_ v)) (size_ v - size_ r);;
         assign_loop (data_ v) (data_ r) 0 (size_ r)
       else
         assign_loop (data_ v) (data_ r) 0 (size_ v);;
         uninitialized_copy_n (GetAddress (data_ r)) (size_ r - size_ v)
           (GetAddress (data_ v)));;
      store this (mkVec (data_ v) (size_ r))
  else ret tt.

(** [SimpleVector& operator=(SimpleVector&& rhs) noexcept] *)
Definition operator_assign_move (this rhs : nat) : M T unit :=
  if decide (this ≠ rhs) then Swap this rhs else ret tt.

(** [T& operator[](size_t index) noexcept], the reference as a pointer *)
Definition operator_index (v : SimpleVector) (index : nat) : ptr :=
  RawMemory_index (data_ v) index.

(** [void Reserve(size_t new_capacity)] *)
Definition Reserve (this : nat) (new_capacity : nat) : M T unit :=
  v ← load this;
  if decide (new_capacity ≤ RawMemory_Capacity (data_ v)) then ret tt
  else
    new_data ← RawMemory_sized new_capacity;
    unwinding (RawMemory_dtor new_data)
      ((if negb is_copy_constructible || is_nothrow_move_constructible then
          uninitialized_move_n (GetAddress (data_ v)) (size_ v)
            (GetAddress new_data)
        else
          uninitialized_copy_n (GetAddress (data_ v)) (size_ v)
            (GetAddress new_data));;
       destroy_n (GetAddress (data_ v)) (size_ v));;
    let '(d, new_data) := RawMemory_Swap (data_ v) new_data in
    store this (mkVec d (size_ v));;
    RawMemory_dtor new_data.

(** [void Resize(size_t new_size)] *)
Definition Resize (this : nat) (new_size : nat) : M T unit :=
  v ← load this;
  (if decide (size_ v > new_size) then
     destroy_n (GetAddress (data_ v)) (size_ v - new_size)
   else if decide (size_ v < new_size) then
     Reserve this new_size;;
     v' ← load this;
     uninitialized_value_construct_n (GetAddress (data_ v'))
       (new_size - size_ v')
   else ret tt);;
  v' ← load this;
  store this (mkVec (data_ v') new_size).

(** The body the three appends share word for word, [PushBack(const T&)],
    [PushBack(T&&)] and [EmplaceBack(Args&&...)], up to the expression that
    constructs the new element: [std::uninitialized_copy_n(&value, 1, p)],
    [std::uninitialized_move_n(&value, 1, p)] and
    [new (p) T(std::forward<Args>(args)...)], each one constructor call at
    [p].  The argument is an object outside the blocks of the heap. *)
Definition append (this : nat) (a : ctor_args T) : M T unit :=
  v ← load this;
  (if decide (size_ v ≠ Capacity v) then
     construct_from (RawMemory_plus (data_ v) (size_ v)) a
   else
     new_data ← RawMemory_sized (if decide (size_ v = 0) then 1 else size_ v * 2);
     unwinding (RawMemory_dtor new_data)
       (construct_from (RawMemory_plus new_data (size_ v)) a;;
        (if is_copy_constructible && negb is_nothrow_move_constructible then
           uninitialized_copy_n (GetAddress (data_ v)) (size_ v)
             (GetAddress new_data)
         else
           uninitialized_move_n (GetAddress (data_ v)) (size_ v)
             (GetAddress new_data));;
        destroy_n (GetAddress (data_ v)) (size_ v));;
     let '(d, new_data) := RawMemory_Swap (data_ v) new_data in
     store this (mkVec d (size_ v));;
     RawMemory_dtor new_data);;
  v' ← load this;
  store this (mkVec (data_ v') (size_ v' + 1)).

(** [void PushBack(const T& value)] *)
Definition PushBack (this : nat) (value : T) : M T unit :=
  append this (ByCopy value).

(** [void PushBack(T&& value)] *)
Definition PushBack_move (this : nat) (value : T) : M T unit :=
  append this (ByMove value).

(** [T& EmplaceBack(Args&&... args)] *)
Definition EmplaceBack (this : nat) (args : ctor_args T) : M T ptr :=
  append this args;;
  v ← load this;
  ret (operator_index v (size_ v - 1)).

(** [--size_]: on a zero counter the C++ wraps to [SIZE_MAX], a vector
    none of whose later accesses is defined; the embedding stops there. *)
Definition decrement (n : nat) : M T nat :=
  match n with
  | S k => ret k
  | 0 => undefined
  end.

(** [void PopBack()] *)
Definition PopBack (this : nat) : M T unit :=
  v ← load this;
  destroy_at (GetAddress (data_ v));;
  n ← decrement (size_ v);
  store this (mkVec (data_ v) n).

(** [size_ - dist_to_pos] as the count of a library algorithm: when it wraps
    the algorithm runs off the block. *)
Definition count_from (size dist : nat) : M T nat :=
  if decide (dist ≤ size) then ret (size - dist) else undefined.

(** [iterator Emplace(const_iterator pos, Args&&... args)] *)
Definition Emplace (this : nat) (pos : ptr) (args : ctor_args T) : M T ptr :=
  v ← load this;
  dist_to_pos ← distance (begin_ v) pos;
  (if decide (size_ v < Capacity v) then
     if decide (dist_to_pos < size_ v) then
       match constructed args with
       | None => throw
       | Some t =>
           move_construct (end_ v) (RawMemory_index (data_ v) (size_ v - 1));;
           e1 ← ptr_dec (end_ v);
           move_backward (begin_ v +ₚ dist_to_pos) e1 (end_ v);;
           if move_assign_throws t then throw
           else assign (RawMemory_index (data_ v) dist_to_pos) t
       end
     else
       construct_from (RawMemory_plus (data_ v) dist_to_pos) args
   else
     new_data ← RawMemory_sized (if decide (size_ v = 0) then 1 else size_ v * 2);
     unwinding (RawMemory_dtor new_data)
       (unwinding (RawMemory_dtor new_data)
          (construct_from (RawMemory_plus new_data dist_to_pos) args);;
        (if negb is_copy_constructible || is_nothrow_move_constructible then
           uninitialized_move_n (GetAddress (data_ v)) dist_to_pos
             (GetAddress new_data)
         else
           unwinding (destroy_n (RawMemory_plus new_data dist_to_pos) 1)
             (uninitialized_copy_n (GetAddress (data_ v)) dist_to_pos
                (GetAddress new_data)));;
        unwinding (destroy_n (GetAddress new_data) dist_to_pos)
          (n ← count_from (size_ v) dist_to_pos;
           if negb is_copy_constructible || is_nothrow_move_constructible then
             uninitialized_move_n (begin_ v +ₚ dist_to_pos) n
               (RawMemory_plus new_data dist_to_pos +ₚ 1)
           else
             uninitialized_copy_n (begin_ v +ₚ dist_to_pos) n
               (RawMemory_plus new_data dist_to_pos +ₚ 1));;
        destroy_n (GetAddress (data_ v)) (size_ v));;
     let '(d, new_data) := RawMemory_Swap (data_ v) new_data in
     store this (mkVec d (size_ v));;
     RawMemory_dtor new_data);;
  v' ← load this;
  store this (mkVec (data_ v') (size_ v' + 1));;
  ret (RawMemory_plus (data_ v') dist_to_pos).

(** [iterator Insert(const_iterator pos, const T& value)] *)
Definition Insert (this : nat) (pos : ptr) (value : T) : M T ptr :=
  Emplace this pos (ByCopy value).

(** [iterator Insert(const_iterator pos, T&& value)] *)
Definition Insert_move (this : nat) (pos : ptr) (value : T) : M T ptr :=
  Emplace this pos (ByMove value).

(** [iterator Erase(const_iterator pos)] *)
Definition Erase (this : nat) (pos : ptr) : M T ptr :=
  v ← load this;
  dist_to_pos ← distance (begin_ v) pos;
  std_move (begin_ v +ₚ dist_to_pos +ₚ 1) (end_ v) (begin_ v +ₚ dist_to_pos);;
  e1 ← ptr_dec (end_ v);
  destroy_n e1 1;;
  n ← decrement (size_ v);
  store this (mkVec (data_ v) n);;
  ret (begin_ v +ₚ dist_to_pos).

End SimpleVectorClass.

(** ** Programs over vectors *)

Section Operations.
Context {T : Type} `{Element T}.

(** The operations of a [SimpleVector], each with the address of the object
    it is called on. *)
Inductive operation :=
  | OpDefault (this : nat)
  | OpSized (this : nat) (size : nat)
  | OpCopy (this other : nat)
  | OpMove (this other : nat)
  | OpAssign (this rhs : nat)
  | OpAssignMove (this rhs : nat)
  | OpSwap (this other : nat)
  | OpReserve (this : nat) (new_capacity : nat)
  | OpResize (this : nat) (new_size : nat)
  | OpPushBack (this : nat) (value : T)
  | OpPushBackMove (this : nat) (value : T)
  | OpEmplaceBack (this : nat) (args : ctor_args T)
  | OpPopBack (this : nat)
  | OpInsert (this : nat) (pos : ptr) (value : T)
  | OpInsertMove (this : nat) (pos : ptr) (value : T)
  | OpEmplace (this : nat) (pos : ptr) (args : ctor_args T)
  | OpErase (this : nat) (pos : ptr).

Definition run_operation (op : operation) : M T unit :=
  match op with
  | OpDefault this => SimpleVector_default this
  | OpSized this size => SimpleVector_sized this size
  | OpCopy this other => SimpleVector_copy this other
  | OpMove this other => SimpleVector_move this other
  | OpAssign this rhs => operator_assign this rhs
  | OpAssignMove this rhs => operator_assign_move this rhs
  | OpSwap this other => Swap this other
  | OpReserve this new_capacity => Reserve this new_capacity
  | OpResize this new_size => Resize this new_size
  | OpPushBack this value => PushBack this value
  | OpPushBackMove this value => PushBack_move this value
  | OpEmplaceBack this args => EmplaceBack this args;; ret tt
  | OpPopBack this => PopBack this
  | OpInsert this pos value => Insert this pos value;; ret tt
  | OpInsertMove this pos value => Insert_move this pos value;; ret tt
  | OpEmplace this pos args => Emplace this pos args;; ret tt
  | OpErase this pos => Erase this pos;; ret tt
  end.

(** [try { m; } catch (...) { }]: the caller goes on after an exception. *)
Definition attempt (m : M T unit) : M T unit := λ st,
  match m st with
  | (Throw, st') => (Ok tt, st')
  | r => r
  end.

(** A sequence of operations, each one attempted: an operation that throws
    leaves the state it leaves and the next one runs from there. *)
Fixpoint run_operations (ops : list operation) : M T unit :=
  match ops with
  | [] => ret tt
  | op :: ops' => attempt (run_operation op);; run_operations ops'
  end.

(** The argument of a call that takes [const T&] or [T&&]: which overload
    it selects, and the value. *)
Inductive argument :=
  | Lvalue (value : T)
  | Rvalue (value : T).

Definition value_of (c : argument) : T :=
  match c with
  | Lvalue value => value
  | Rvalue value => value
  end.

(** [v.PushBack(c)], through the overload the argument selects. *)
Definition push_back (this : nat) (c : argument) : M T unit :=
  match c with
  | Lvalue value => PushBack this value
  | Rvalue value => PushBack_move this value
  end.

(** [v.PushBack(c1); v.PushBack(c2); ...] *)
Fixpoint push_back_all (this : nat) (calls : list argument) : M T unit :=
  match calls with
  | [] => ret tt
  | c :: calls' => push_back this c;; push_back_all this calls'
  end.

(** [v.Insert(pos, c)], through the overload the argument selects. *)
Definition insert_at (this : nat) (pos : ptr) (c : argument) : M T ptr :=
  match c with
  | Lvalue value => Insert this pos value
  | Rvalue value => Insert_move this pos value
  end.

(** [v.Erase(v.Insert(v.begin() + p, c))] *)
Definition insert_then_erase (this : nat) (p : nat) (c : argument)
    : M T ptr :=
  v ← load this;
  it ← insert_at this (begin_ v +ₚ p) c;
  Erase this it.

(** ** What a state says about a vector *)

(** The cells of the block a pointer to its start designates. *)
Definition block_at (st : state T) (buf : ptr) : option (list (slot T)) :=
  match buf with
  | nullptr => Some []
  | Ptr b 0 => heap st !! b
  | Ptr _ (S _) => None
  end.

(** The cells [[0, size)] of the vector at [this], the ones indexing and
    iteration reach. *)
Definition cells (st : state T) (this : nat) : option (list (slot T)) :=
  match vecs st !! this with
  | Some v => take (size_ v) <$> block_at st (buffer_ (data_ v))
  | None => None
  end.

(** The vector at [this] holds the elements [l] in a block of [c] cells:
    the first [length l] cells are the live elements, in order. *)
Definition holds (st : state T) (this : nat) (l : list T) (c : nat) : Prop :=
  ∃ v spare,
    vecs st !! this = Some v ∧
    size_ v = length l ∧
    capacity_ (data_ v) = c ∧
    length l + length spare = c ∧
    match buffer_ (data_ v) with
    | nullptr => c = 0
    | Ptr b off => off = 0 ∧ heap st !! b = Some ((Obj <$> l) ++ spare)
    end.

(** [size_ <= data_.Capacity()] for every vector object of the store. *)
Definition size_le_capacity (st : state T) : Prop :=
  map_Forall (λ _ v, size_ v ≤ capacity_ (data_ v)) (vecs st).

(** [Q] holds of the outcome and the final state of [m] run from [st]. *)
Definition wp {A} (m : M T A) (Q : outcome A → state T → Prop)
    (st : state T) : Prop :=
  Q (m st).1 (m st).2.

(** An operation on elements and blocks: it leaves the vector objects alone
    and only adds to the trace. *)
Definition elementwise {A} (m : M T A) : Prop :=
  ∀ st, vecs (m st).2 = vecs st ∧ ∃ evs, log (m st).2 = log st ++ evs.

(** Whatever [m] does, it only adds events to the trace. *)
Definition trace_grows {A} (m : M T A) : Prop :=
  ∀ st, ∃ evs, log (m st).2 = log st ++ evs.

End Operations.

Arguments operation : clear implicits.
Arguments argument : clear implicits.

(** ** Element types of the examples *)

From Stdlib Require Import ZArith.

(** [int]: nothing throws, a move is a copy. *)
#[global, refine] Instance int_element : Element Z := {|
  value_init := 0%Z;
  value_init_throws := false;
  copy_throws := λ _, false;
  move_throws := λ _, false;
  copy_assign_throws := λ _, false;
  move_assign_throws := λ _, false;
  moved_from := λ v, v;
  is_copy_constructible := true;
  is_nothrow_move_constructible := true
|}.
Proof. done. Defined.

(** An instrumented element: an integer whose copy constructor throws on
    negative values and whose move constructor is not [noexcept]; a moved-from
    object holds zero. *)
Record Fragile := mkFragile { payload : Z }.

#[global, refine] Instance fragile_element : Element Fragile := {|
  value_init := mkFragile 0;
  value_init_throws := false;
  copy_throws := λ v, bool_decide (payload v < 0)%Z;
  move_throws := λ _, false;
  copy_assign_throws := λ v, bool_decide (payload v < 0)%Z;
  move_assign_throws := λ _, false;
  moved_from := λ _, mkFragile 0;
  is_copy_constructible := true;
  is_nothrow_move_constructible := false
|}.
Proof. done. Defined.

(** An allocator with room for a hundred elements, no block, no object. *)
Definition empty_state {T} : state T := mkState ∅ 100 ∅ [].

(** The state a program leaves, and its outcome. *)
Definition after {T A} (m : M T A) (st : state T) : state T := (m st).2.
Definition outcome_of {T A} (m : M T A) (st : state T) : outcome A := (m st).1.

(** The events a run from [st] to [st'] added to the trace. *)
Definition new_events {T} (st st' : state T) : list event :=
  drop (length (log st)) (log st').

(** [SimpleVector<int> v; v.PushBack(x1); v.PushBack(x2); ...] with [v] at
    address [this]. *)
Definition build (this : nat) (xs : list Z) : M Z unit :=
  SimpleVector_default this;; push_back_all this (Lvalue <$> xs).

(** A [RawMemory<int>] of capacity one whose cell holds the element 7; the
    block has address 0. *)
Definition raw_with_seven : state Z :=
  after (other ← RawMemory_sized 1; construct (buffer_ other) 7%Z) empty_state.

(** After it, a second [RawMemory<int>] of capacity one, its cell raw; the
    block has address 1. *)
Definition raw_pair : state Z :=
  after (RawMemory_sized 1) raw_with_seven.

(** The vector [[1, 2, 3]] at address 0; its block has address 2 and four
    cells. *)
Definition vector_123 : state Z :=
  after (build 0 [1; 2; 3]%Z) empty_state.

(** The vector [[42]] at address 0, size and capacity one. *)
Definition vector_42 : state Z :=
  after (build 0 [42]%Z) empty_state.

(** [[1, 2, 3]] at address 0 and [[9]] at address 1. *)
Definition vectors_123_9 : state Z :=
  after (build 1 [9]%Z) vector_123.

(** [[1]] with capacity three at address 0 (block 0) and [[7, 8, 9]] at
    address 1 (block 3). *)
Definition vectors_1_789 : state Z :=
  after (SimpleVector_default 0;; Reserve 0 3;; PushBack 0 1%Z;;
         build 1 [7; 8; 9]%Z) empty_state.

(** A full vector of [Fragile] elements [[1, -1]] at address 0: size and
    capacity two, block 1.  The elements were moved in. *)
Definition fragile_full : state Fragile :=
  after (SimpleVector_default 0;;
         PushBack_move 0 (mkFragile 1);;
         PushBack_move 0 (mkFragile (-1))) empty_state.

(** * Reasoning about the embedding *)

(** ** The monad *)

Section MonadLemmas.
Context {T : Type} `{Element T}.

Lemma bind_Ok {A B} (m : M T A) (k : A → M T B) st a st1 :
  m st = (Ok a, st1) → bind m k st = k a st1.
Proof. unfold bind. by intros ->. Qed.

Lemma bind_Throw {A B} (m : M T A) (k : A → M T B) st st1 :
  m st = (Throw, st1) → bind m k st = (Throw, st1).
Proof. unfold bind. by intros ->. Qed.

Lemma bind_UB {A B} (m : M T A) (k : A → M T B) st st1 :
  m st = (UB, st1) → bind m k st = (UB, st1).
Proof. unfold bind. by intros ->. Qed.

Lemma bind_inv_Ok {A B} (m : M T A) (k : A → M T B) st b st' :
  bind m k st = (Ok b, st') →
  ∃ a st1, m st = (Ok a, st1) ∧ k a st1 = (Ok b, st').
Proof.
  unfold bind. destruct (m st) as [[a| |] st1]; [eauto | done | done].
Qed.

Lemma unwinding_inv_Ok {A} (h : M T unit) (body : M T A) st a st' :
  unwinding h body st = (Ok a, st') → body st = (Ok a, st').
Proof.
  unfold unwinding. destruct (body st) as [[a'| |] st1]; [done | | done].
  by destruct (h st1) as [[[]| |] ?].
Qed.

Lemma unwinding_Throw {A} (h : M T unit) (body : M T A) st st1 st2 u :
  body st = (Throw, st1) → h st1 = (Ok u, st2) →
  unwinding h body st = (Throw, st2).
Proof. unfold unwinding. by intros -> ->. Qed.

Lemma wp_ret {A} (a : A) Q (st : state T) : Q (Ok a) st → wp (ret a) Q st.
Proof. done. Qed.

Lemma wp_throw {A} (Q : outcome A → state T → Prop) st :
  Q Throw st → wp throw Q st.
Proof. done. Qed.

Lemma wp_undefined {A} (Q : outcome A → state T → Prop) st :
  Q UB st → wp undefined Q st.
Proof. done. Qed.

Lemma wp_bind {A B} (m : M T A) (k : A → M T B) Q st :
  wp m (λ o s, match o with
               | Ok a => wp (k a) Q s
               | Throw => Q Throw s
               | UB => Q UB s
               end) st →
  wp (bind m k) Q st.
Proof. unfold wp, bind. by destruct (m st) as [[a| |] st1]. Qed.

Lemma wp_unwinding {A} (h : M T unit) (body : M T A) Q st :
  wp body (λ o s, match o with
                  | Throw => wp h (λ o' s', match o' with
                                            | UB => Q UB s'
                                            | _ => Q Throw s'
                                            end) s
                  | _ => Q o s
                  end) st →
  wp (unwinding h body) Q st.
Proof.
  unfold wp, unwinding. destruct (body st) as [[a| |] st1]; [done | | done].
  simpl. by destruct (h st1) as [[[]| |] ?].
Qed.

Lemma wp_mono {A} (m : M T A) (Q Q' : outcome A → state T → Prop) st :
  wp m Q st → (∀ o s, Q o s → Q' o s) → wp m Q' st.
Proof. unfold wp. auto. Qed.

Lemma wp_elementwise {A} (m : M T A) Q st :
  elementwise m →
  (∀ o s, vecs s = vecs st → (∃ evs, log s = log st ++ evs) → Q o s) →
  wp m Q st.
Proof. intros Hm HQ. apply HQ; apply Hm. Qed.

Lemma wp_load this Q (st : state T) :
  (∀ v, vecs st !! this = Some v → Q (Ok v) st) →
  (vecs st !! this = None → Q UB st) →
  wp (load this) Q st.
Proof.
  unfold wp, load. intros H1 H2.
  destruct (vecs st !! this) as [v|] eqn:E; simpl; auto.
Qed.

Lemma wp_store this v Q (st : state T) :
  Q (Ok tt) (set_vecs (<[this := v]> (vecs st)) st) →
  wp (store this v) Q st.
Proof. done. Qed.

Lemma wp_release this Q (st : state T) :
  Q (Ok tt) (set_vecs (delete this (vecs st)) st) →
  wp (release this) Q st.
Proof. done. Qed.

Lemma wp_automatic Q (st : state T) :
  Q (Ok (fresh (dom (vecs st)))) st → wp automatic Q st.
Proof. done. Qed.

End MonadLemmas.

(** ** Operations that leave the vector objects alone *)

Create HintDb elementwise.

Section ElementwiseMonad.
Context {T : Type} `{Element T}.

Lemma elementwise_same {A} (m : M T A) :
  (∀ st, (m st).2 = st) → elementwise m.
Proof.
  intros Hm st. rewrite Hm. split; [done|]. exists []. by rewrite app_nil_r.
Qed.

Lemma elementwise_ret {A} (a : A) : elementwise (ret (T:=T) a).
Proof. by apply elementwise_same. Qed.

Lemma elementwise_throw {A} : elementwise (throw (T:=T) (A:=A)).
Proof. by apply elementwise_same. Qed.

Lemma elementwise_undefined {A} : elementwise (undefined (T:=T) (A:=A)).
Proof. by apply elementwise_same. Qed.

Lemma elementwise_bind {A B} (m : M T A) (k : A → M T B) :
  elementwise m → (∀ a, elementwise (k a)) → elementwise (bind m k).
Proof.
  intros Hm Hk st. destruct (Hm st) as [Hv [e1 Hl]]. unfold bind.
  destruct (m st) as [[a| |] st1]; simpl in *; [|eauto..].
  destruct (Hk a st1) as [Hv' [e2 Hl']]. split; [congruence|].
  exists (e1 ++ e2). by rewrite Hl', Hl, app_assoc.
Qed.

Lemma elementwise_unwinding {A} (h : M T unit) (body : M T A) :
  elementwise h → elementwise body → elementwise (unwinding h body).
Proof.
  intros Hh Hb st. destruct (Hb st) as [Hv [e1 Hl]]. unfold unwinding.
  destruct (body st) as [[a| |] st1]; simpl in *; [eauto| |eauto].
  destruct (Hh st1) as [Hv' [e2 Hl']].
  assert (vecs (h st1).2 = vecs st ∧ ∃ evs, log (h st1).2 = log st ++ evs)
    as Hgoal.
  { split; [congruence|]. exists (e1 ++ e2). by rewrite Hl', Hl, app_assoc. }
  by destruct (h st1) as [[[]| |] ?].
Qed.

End ElementwiseMonad.

Ltac solve_elementwise :=
  repeat (intros; cbv beta;
          first [ assumption
                | progress auto with elementwise
                | apply elementwise_bind
                | apply elementwise_unwinding
                | case_decide
                | case_match ]).

Section Elementwise.
Context {T : Type} `{Element T}.

Lemma elementwise_emit e : elementwise (emit (T:=T) e).
Proof. intros st. split; [done|]. by exists [e]. Qed.

Lemma elementwise_slot_at p : elementwise (slot_at (T:=T) p).
Proof.
  apply elementwise_same. intros st. unfold slot_at.
  by repeat case_match.
Qed.

Lemma elementwise_set_slot p s : elementwise (set_slot (T:=T) p s).
Proof.
  intros st. unfold set_slot.
  repeat case_match; simpl; (split; [done|]); exists []; by rewrite app_nil_r.
Qed.

Hint Resolve elementwise_ret elementwise_throw elementwise_undefined
  elementwise_emit elementwise_slot_at elementwise_set_slot : elementwise.

Lemma elementwise_read p : elementwise (read (T:=T) p).
Proof. unfold read. solve_elementwise. Qed.
Hint Resolve elementwise_read : elementwise.

Lemma elementwise_construct p v : elementwise (construct (T:=T) p v).
Proof. unfold construct. solve_elementwise. Qed.

Lemma elementwise_destroy_at p : elementwise (destroy_at (T:=T) p).
Proof. unfold destroy_at. solve_elementwise. Qed.

Lemma elementwise_assign p v : elementwise (assign (T:=T) p v).
Proof. unfold assign. solve_elementwise. Qed.

Hint Resolve elementwise_construct elementwise_destroy_at
  elementwise_assign : elementwise.

Lemma elementwise_value_construct p : elementwise (value_construct (T:=T) p).
Proof. unfold value_construct. solve_elementwise. Qed.

Lemma elementwise_copy_construct p q : elementwise (copy_construct (T:=T) p q).
Proof. unfold copy_construct. solve_elementwise. Qed.

Lemma elementwise_move_construct p q : elementwise (move_construct (T:=T) p q).
Proof. unfold move_construct. solve_elementwise. Qed.

Lemma elementwise_copy_assign p q : elementwise (copy_assign (T:=T) p q).
Proof. unfold copy_assign. solve_elementwise. Qed.

Lemma elementwise_move_assign p q : elementwise (move_assign (T:=T) p q).
Proof. unfold move_assign. solve_elementwise. Qed.

Lemma elementwise_construct_from p a : elementwise (construct_from (T:=T) p a).
Proof. unfold construct_from. solve_elementwise. Qed.

Lemma elementwise_ptr_dec p : elementwise (ptr_dec (T:=T) p).
Proof. unfold ptr_dec. solve_elementwise. Qed.

Lemma elementwise_distance p q : elementwise (distance (T:=T) p q).
Proof. unfold distance. solve_elementwise. Qed.

Hint Resolve elementwise_value_construct elementwise_copy_construct
  elementwise_move_construct elementwise_copy_assign elementwise_move_assign
  elementwise_construct_from elementwise_ptr_dec elementwise_distance
  : elementwise.

Lemma elementwise_destroy_n n : ∀ p, elementwise (destroy_n (T:=T) p n).
Proof. induction n; simpl; solve_elementwise. Qed.
Hint Resolve elementwise_destroy_n : elementwise.

Lemma elementwise_uninitialized_copy_from n :
  ∀ d done first, elementwise (uninitialized_copy_from (T:=T) d done first n).
Proof. induction n; simpl; solve_elementwise. Qed.

Lemma elementwise_uninitialized_move_from n :
  ∀ d done first, elementwise (uninitialized_move_from (T:=T) d done first n).
Proof. induction n; simpl; solve_elementwise. Qed.

Lemma elementwise_uninitialized_value_construct_from n :
  ∀ first done, elementwise (uninitialized_value_construct_from (T:=T) first done n).
Proof. induction n; simpl; solve_elementwise. Qed.

Hint Resolve elementwise_uninitialized_copy_from
  elementwise_uninitialized_move_from
  elementwise_uninitialized_value_construct_from : elementwise.

Lemma elementwise_uninitialized_copy_n first n d :
  elementwise (uninitialized_copy_n (T:=T) first n d).
Proof. unfold uninitialized_copy_n. solve_elementwise. Qed.

Lemma elementwise_uninitialized_move_n first n d :
  elementwise (uninitialized_move_n (T:=T) first n d).
Proof. unfold uninitialized_move_n. solve_elementwise. Qed.

Lemma elementwise_uninitialized_value_construct_n first n :
  elementwise (uninitialized_value_construct_n (T:=T) first n).
Proof. unfold uninitialized_value_construct_n. solve_elementwise. Qed.

Lemma elementwise_move_backward_loop n :
  ∀ last d_last, elementwise (move_backward_loop (T:=T) last d_last n).
Proof. induction n; simpl; solve_elementwise. Qed.

Lemma elementwise_move_loop n :
  ∀ first d_first, elementwise (move_loop (T:=T) first d_first n).
Proof. induction n; simpl; solve_elementwise. Qed.

Hint Resolve elementwise_move_backward_loop elementwise_move_loop
  : elementwise.

Lemma elementwise_move_backward first last d_last :
  elementwise (move_backward (T:=T) first last d_last).
Proof. unfold move_backward. solve_elementwise. Qed.

Lemma elementwise_std_move first last d_first :
  elementwise (std_move (T:=T) first last d_first).
Proof. unfold std_move. solve_elementwise. Qed.

Lemma elementwise_assign_loop n :
  ∀ d rd i, elementwise (assign_loop (T:=T) d rd i n).
Proof. induction n; simpl; solve_elementwise. Qed.

Lemma elementwise_operator_new n : elementwise (operator_new (T:=T) n).
Proof.
  intros st. unfold operator_new. case_decide; simpl;
    (split; [done|]); exists []; by rewrite app_nil_r.
Qed.

Lemma elementwise_operator_delete p : elementwise (operator_delete (T:=T) p).
Proof.
  intros st. unfold operator_delete. repeat case_match; simpl;
    (split; [done|]); exists []; by rewrite app_nil_r.
Qed.

Hint Resolve elementwise_operator_new elementwise_operator_delete
  : elementwise.

Lemma elementwise_Allocate n : elementwise (Allocate (T:=T) n).
Proof. unfold Allocate. solve_elementwise. Qed.
Hint Resolve elementwise_Allocate : elementwise.

Lemma elementwise_RawMemory_sized n : elementwise (RawMemory_sized (T:=T) n).
Proof. unfold RawMemory_sized. solve_elementwise. Qed.

Lemma elementwise_RawMemory_dtor d : elementwise (RawMemory_dtor (T:=T) d).
Proof. unfold RawMemory_dtor, Deallocate. solve_elementwise. Qed.

Lemma elementwise_decrement n : elementwise (decrement (T:=T) n).
Proof. unfold decrement. solve_elementwise. Qed.

Lemma elementwise_count_from n k : elementwise (count_from (T:=T) n k).
Proof. unfold count_from. solve_elementwise. Qed.

End Elementwise.

Global Hint Resolve elementwise_ret elementwise_throw elementwise_undefined
  elementwise_emit elementwise_slot_at elementwise_set_slot elementwise_read
  elementwise_construct elementwise_destroy_at elementwise_assign
  elementwise_value_construct elementwise_copy_construct
  elementwise_move_construct elementwise_copy_assign elementwise_move_assign
  elementwise_construct_from elementwise_ptr_dec elementwise_distance
  elementwise_destroy_n elementwise_uninitialized_copy_n
  elementwise_uninitialized_move_n elementwise_uninitialized_value_construct_n
  elementwise_move_backward elementwise_std_move elementwise_assign_loop
  elementwise_Allocate elementwise_RawMemory_sized elementwise_RawMemory_dtor
  elementwise_decrement elementwise_count_from : elementwise.

(** ** Stepping through the methods, keeping track of the vector objects *)

Section ResultLemmas.
Context {T : Type} `{Element T}.

Lemma wp_post {A} (m : M T A) (R : outcome A → Prop) Q st :
  elementwise m → (∀ s, R (m s).1) →
  (∀ o s, vecs s = vecs st → R o → Q o s) → wp m Q st.
Proof. intros Hm HR HQ. apply HQ; [apply Hm | apply HR]. Qed.

Lemma RawMemory_sized_capacity n (st : state T) :
  match (RawMemory_sized n st).1 with
  | Ok d => capacity_ d = n
  | _ => True
  end.
Proof.
  unfold RawMemory_sized, Allocate, operator_new, bind, ret.
  repeat case_decide; simpl; done.
Qed.

Lemma decrement_pred n (st : state T) :
  match (decrement n st).1 with
  | Ok k => n = S k
  | _ => True
  end.
Proof. by destruct n. Qed.

Lemma wp_RawMemory_sized n Q (st : state T) :
  (∀ o s, vecs s = vecs st →
          match o with Ok d => capacity_ d = n | _ => True end → Q o s) →
  wp (RawMemory_sized n) Q st.
Proof.
  apply wp_post; [solve_elementwise | apply RawMemory_sized_capacity].
Qed.

Lemma wp_decrement n Q (st : state T) :
  (∀ o s, vecs s = vecs st →
          match o with Ok k => n = S k | _ => True end → Q o s) →
  wp (decrement n) Q st.
Proof. apply wp_post; [solve_elementwise | apply decrement_pred]. Qed.

End ResultLemmas.

(** Rewrite the object store of a later state into the one it came from. *)
Ltac vecs_norm_in Hv :=
  simpl in Hv;
  repeat match goal with
         | E : vecs ?s = _ |- _ => rewrite E in Hv; simpl in Hv
         end.

Ltac vecs_norm :=
  unfold size_le_capacity; simpl;
  repeat match goal with
         | E : vecs ?s = _ |- _ => rewrite E; simpl
         end.

(** What a [load] found, and what the invariant says about it. *)
Ltac vecs_lookup Hv :=
  vecs_norm_in Hv;
  repeat (first [ rewrite lookup_insert in Hv | rewrite lookup_delete in Hv ];
          case_decide; simplify_eq);
  try match goal with
      | Hi : size_le_capacity ?st |- _ =>
          match type of Hv with
          | vecs st !! _ = Some _ =>
              let Hle := fresh "Hle" in
              pose proof (Hi _ _ Hv) as Hle; simpl in Hle
          end
      end.

Ltac wp_leaf :=
  vecs_norm;
  repeat first [ apply map_Forall_insert_2 | apply map_Forall_delete ];
  simpl in *; first [ assumption | lia ].

Ltac wp_step :=
  cbv beta iota;
  lazymatch goal with
  | |- wp (bind _ _) _ _ => apply wp_bind
  | |- wp (ret _) _ _ => apply wp_ret
  | |- wp throw _ _ => apply wp_throw
  | |- wp undefined _ _ => apply wp_undefined
  | |- wp (unwinding _ _) _ _ => apply wp_unwinding
  | |- wp (load _) _ _ =>
      let v := fresh "v" in
      let Hv := fresh "Hv" in
      apply wp_load; [intros v Hv; vecs_lookup Hv; simplify_eq | intros _]
  | |- wp (store _ _) _ _ => apply wp_store
  | |- wp (release _) _ _ => apply wp_release
  | |- wp automatic _ _ => apply wp_automatic
  | |- wp (RawMemory_sized _) _ _ =>
      let s := fresh "s" in
      let Hs := fresh "Hs" in
      let Hd := fresh "Hd" in
      apply wp_RawMemory_sized; intros [?| |] s Hs Hd
  | |- wp (decrement _) _ _ =>
      let s := fresh "s" in
      let Hs := fresh "Hs" in
      let Hd := fresh "Hd" in
      apply wp_decrement; intros [?| |] s Hs Hd
  | |- wp (if decide _ then _ else _) _ _ => case_decide
  | |- wp (if _ then _ else _) _ _ => case_match
  | |- wp (match _ with _ => _ end) _ _ => case_match
  | |- wp _ _ _ =>
      let s := fresh "s" in
      let Hs := fresh "Hs" in
      apply wp_elementwise; [solve_elementwise | intros [?| |] s Hs _]
  | |- size_le_capacity _ => wp_leaf
  end.

Ltac unfold_methods :=
  unfold run_operation, PushBack, PushBack_move, EmplaceBack, Insert,
    Insert_move, append, Emplace, Erase, PopBack, Resize, Reserve,
    operator_assign, operator_assign_move, SimpleVector_copy,
    SimpleVector_move, SimpleVector_sized, SimpleVector_default,
    SimpleVector_dtor, Swap, destroy_members, Capacity, RawMemory_Capacity,
    RawMemory_Swap, begin_, end_, GetAddress, RawMemory_default in *.

Section Invariant.
Context {T : Type} `{Element T}.

Lemma run_operation_size_le_capacity (op : operation T) (st : state T) :
  size_le_capacity st →
  wp (run_operation op) (λ _ s, size_le_capacity s) st.
Proof.
  intros Hinv. destruct op; unfold_methods; repeat wp_step.
Qed.

Lemma run_operations_size_le_capacity (ops : list (operation T)) :
  ∀ st, size_le_capacity st →
        wp (run_operations ops) (λ _ s, size_le_capacity s) st.
Proof.
  induction ops as [|op ops IH]; intros st Hinv; simpl; [done|].
  apply wp_bind. unfold wp at 1, attempt.
  pose proof (run_operation_size_le_capacity op st Hinv) as Hop.
  unfold wp in Hop.
  destruct (run_operation op st) as [[[]| |] s]; simpl in *;
    [by apply IH | by apply IH | done].
Qed.

End Invariant.

(** ** What the element operations do to the blocks

    Each lemma reads off, from a run that returned, what became of the heap. *)

Section Heap.
Context {T : Type} `{Element T}.
Implicit Types (st : state T) (blk : list (slot T)) (xs : list T).

Lemma elementwise_vecs {A} (m : M T A) st o st' :
  elementwise m → m st = (o, st') → vecs st' = vecs st.
Proof. intros Hm Hr. destruct (Hm st) as [Hv _]. by rewrite Hr in Hv. Qed.

Lemma read_at b off blk v st :
  heap st !! b = Some blk → blk !! off = Some (Obj v) →
  read (Ptr b off) st = (Ok v, st).
Proof. intros Hb Ho. unfold read, bind, slot_at. by rewrite Hb, Ho. Qed.

Lemma set_slot_at b off blk s st :
  heap st !! b = Some blk → off < length blk →
  set_slot (Ptr b off) s st =
    (Ok tt, set_heap (<[b := <[off := s]> blk]> (heap st)) st).
Proof. intros Hb Ho. unfold set_slot. rewrite Hb. by rewrite decide_True. Qed.

Lemma set_slot_Ok b off s st st' :
  set_slot (Ptr b off) s st = (Ok tt, st') →
  ∃ blk, heap st !! b = Some blk ∧ off < length blk ∧
         st' = set_heap (<[b := <[off := s]> blk]> (heap st)) st.
Proof.
  unfold set_slot. destruct (heap st !! b) as [blk|]; [|done].
  case_decide; [|done]. intros [= <-]. eauto.
Qed.

Lemma construct_Ok b off v st st' :
  construct (Ptr b off) v st = (Ok tt, st') →
  ∃ blk, heap st !! b = Some blk ∧ off < length blk ∧
         heap st' = <[b := <[off := Obj v]> blk]> (heap st).
Proof.
  unfold construct. intros ([] & s1 & Hs & He)%bind_inv_Ok.
  apply set_slot_Ok in Hs as (blk & Hb & Ho & ->).
  injection He as <-. eauto.
Qed.

Lemma read_Ok b off v st st' :
  read (Ptr b off) st = (Ok v, st') →
  st' = st ∧ ∃ blk, heap st !! b = Some blk ∧ blk !! off = Some (Obj v).
Proof.
  unfold read, bind, slot_at. destruct (heap st !! b) as [blk|]; [|done].
  destruct (blk !! off) as [[|w]|] eqn:E; [done| |done].
  intros [= <- <-]. eauto.
Qed.

Lemma destroy_at_Ok b off st st' :
  destroy_at (Ptr b off) st = (Ok tt, st') →
  ∃ blk v, heap st !! b = Some blk ∧ blk !! off = Some (Obj v) ∧
           heap st' = <[b := <[off := Raw]> blk]> (heap st).
Proof.
  unfold destroy_at. intros (v & s1 & Hr & Hk)%bind_inv_Ok.
  apply read_Ok in Hr as (-> & blk & Hb & Ho).
  apply bind_inv_Ok in Hk as ([] & s2 & Hs & He).
  apply set_slot_Ok in Hs as (blk' & Hb' & _ & ->).
  injection He as <-. simplify_eq. eauto.
Qed.

Lemma assign_Ok b off v st st' :
  assign (Ptr b off) v st = (Ok tt, st') →
  ∃ blk w, heap st !! b = Some blk ∧ blk !! off = Some (Obj w) ∧
           heap st' = <[b := <[off := Obj v]> blk]> (heap st).
Proof.
  unfold assign. intros (w & s1 & Hr & Hk)%bind_inv_Ok.
  apply read_Ok in Hr as (-> & blk & Hb & Ho).
  apply bind_inv_Ok in Hk as ([] & s2 & Hs & He).
  apply set_slot_Ok in Hs as (blk' & Hb' & _ & ->).
  injection He as <-. simplify_eq. eauto.
Qed.

Lemma copy_construct_Ok bd j bs i st st' :
  copy_construct (Ptr bd j) (Ptr bs i) st = (Ok tt, st') →
  ∃ sblk dblk v,
    heap st !! bs = Some sblk ∧ sblk !! i = Some (Obj v) ∧
    heap st !! bd = Some dblk ∧ j < length dblk ∧
    heap st' = <[bd := <[j := Obj v]> dblk]> (heap st).
Proof.
  unfold copy_construct. intros (v & s1 & Hr & Hk)%bind_inv_Ok.
  apply read_Ok in Hr as (-> & sblk & Hb & Ho).
  destruct (copy_throws v); [done|].
  apply construct_Ok in Hk as (dblk & ? & ? & ?). eauto 10.
Qed.

Lemma move_construct_Ok bd j bs i st st' :
  bs ≠ bd →
  move_construct (Ptr bd j) (Ptr bs i) st = (Ok tt, st') →
  ∃ sblk dblk v,
    heap st !! bs = Some sblk ∧ sblk !! i = Some (Obj v) ∧
    heap st !! bd = Some dblk ∧ j < length dblk ∧
    heap st' = <[bs := <[i := Obj (moved_from v)]> sblk]>
                 (<[bd := <[j := Obj v]> dblk]> (heap st)).
Proof.
  intros Hne. unfold move_construct. intros (v & s1 & Hr & Hk)%bind_inv_Ok.
  apply read_Ok in Hr as (-> & sblk & Hb & Ho).
  destruct (move_throws v); [done|].
  apply bind_inv_Ok in Hk as ([] & s2 & Hc & Hs).
  apply construct_Ok in Hc as (dblk & Hd & Hj & Hh).
  apply set_slot_Ok in Hs as (sblk' & Hb' & _ & ->). simpl.
  rewrite Hh, lookup_insert_ne in Hb' by done. simplify_eq.
  rewrite Hh. eauto 10.
Qed.

Lemma destroy_n_Ok b mid : ∀ pre post st st',
  heap st !! b = Some (pre ++ mid ++ post) →
  destroy_n (Ptr b (length pre)) (length mid) st = (Ok tt, st') →
  heap st' = <[b := pre ++ replicate (length mid) Raw ++ post]> (heap st).
Proof.
  induction mid as [|s mid IH]; intros pre post st st' Hb; simpl.
  - intros [= <-]. by rewrite insert_id.
  - intros ([] & s1 & Hd & Hk)%bind_inv_Ok.
    apply destroy_at_Ok in Hd as (blk & v & Hb' & _ & Hh). simplify_eq.
    rewrite insert_app_r_alt, Nat.sub_diag in Hh by lia. simpl in Hh.
    replace (length pre + 1) with (length (pre ++ [Raw])) in Hk
      by (rewrite length_app; simpl; lia).
    apply IH with (post := post) in Hk.
    + rewrite Hk, Hh, insert_insert_eq. by rewrite <- !app_assoc.
    + rewrite Hh, lookup_insert_eq. by rewrite <- app_assoc.
Qed.

Lemma uninitialized_copy_from_Ok bd dj bs xs :
  ∀ done spre spost dpre dmid dpost st st',
    bs ≠ bd →
    heap st !! bs = Some (spre ++ (Obj <$> xs) ++ spost) →
    heap st !! bd = Some (dpre ++ dmid ++ dpost) →
    length dpre = dj + done → length dmid = length xs →
    uninitialized_copy_from (Ptr bd dj) done (Ptr bs (length spre))
      (length xs) st = (Ok tt, st') →
    heap st' = <[bd := dpre ++ (Obj <$> xs) ++ dpost]> (heap st).
Proof.
  induction xs as [|x xs IH];
    intros done spre spost dpre dmid dpost st st' Hne Hs Hd Hl Hm; simpl.
  - intros [= <-]. destruct dmid; [|done]. by rewrite insert_id.
  - destruct dmid as [|d0 dmid]; [done|]. simpl in Hm, Hs, Hd.
    intros ([] & s1 & Hc%unwinding_inv_Ok & Hk)%bind_inv_Ok.
    apply copy_construct_Ok in Hc as (sblk & dblk & v & Hs' & Hv & Hd' & _ & Hh).
    simplify_eq. rewrite list_lookup_middle in Hv by done. simplify_eq.
    rewrite <- Hl, insert_app_r_alt, Nat.sub_diag in Hh by lia. simpl in Hh.
    replace (length spre + 1) with (length (spre ++ [Obj v])) in Hk
      by (rewrite length_app; simpl; lia).
    apply IH with (spost := spost) (dpre := dpre ++ [Obj v]) (dmid := dmid)
                  (dpost := dpost) in Hk.
    + rewrite Hk, Hh, insert_insert_eq. by rewrite <- !app_assoc.
    + done.
    + rewrite Hh, lookup_insert_ne by done. by rewrite <- app_assoc.
    + rewrite Hh, lookup_insert_eq. by rewrite <- app_assoc.
    + rewrite length_app. simpl. lia.
    + lia.
Qed.

Lemma uninitialized_move_from_Ok bd dj bs xs :
  ∀ done spre spost dpre dmid dpost st st',
    bs ≠ bd →
    heap st !! bs = Some (spre ++ (Obj <$> xs) ++ spost) →
    heap st !! bd = Some (dpre ++ dmid ++ dpost) →
    length dpre = dj + done → length dmid = length xs →
    uninitialized_move_from (Ptr bd dj) done (Ptr bs (length spre))
      (length xs) st = (Ok tt, st') →
    heap st' = <[bd := dpre ++ (Obj <$> xs) ++ dpost]>
                 (<[bs := spre ++ (Obj <$> (moved_from <$> xs)) ++ spost]>
                    (heap st)).
Proof.
  induction xs as [|x xs IH];
    intros done spre spost dpre dmid dpost st st' Hne Hs Hd Hl Hm; simpl.
  - intros [= <-]. destruct dmid; [|done].
    rewrite (insert_id _ bs) by done. by rewrite insert_id.
  - destruct dmid as [|d0 dmid]; [done|]. simpl in Hm, Hs, Hd.
    intros ([] & s1 & Hc%unwinding_inv_Ok & Hk)%bind_inv_Ok.
    apply move_construct_Ok in Hc
        as (sblk & dblk & v & Hs' & Hv & Hd' & _ & Hh); [|done].
    simplify_eq. rewrite list_lookup_middle in Hv by done. simplify_eq.
    rewrite <- Hl, (insert_app_r_alt dpre), Nat.sub_diag in Hh by lia.
    rewrite (insert_app_r_alt spre), Nat.sub_diag in Hh by lia.
    simpl in Hh.
    replace (length spre + 1)
      with (length (spre ++ [Obj (moved_from v)])) in Hk
      by (rewrite length_app; simpl; lia).
    apply IH with (spost := spost) (dpre := dpre ++ [Obj v]) (dmid := dmid)
                  (dpost := dpost) in Hk.
    + rewrite Hk, Hh. rewrite (insert_insert_eq _ bs).
      rewrite (insert_insert_ne _ bd bs) by done.
      rewrite insert_insert_eq.
      rewrite (insert_insert_ne _ bd bs) by done.
      by rewrite <- !app_assoc.
    + done.
    + rewrite Hh, lookup_insert_eq. by rewrite <- app_assoc.
    + rewrite Hh, lookup_insert_ne, lookup_insert_eq by done.
      by rewrite <- app_assoc.
    + rewrite length_app. simpl. lia.
    + lia.
Qed.

Lemma construct_from_Ok b off a st st' :
  construct_from (Ptr b off) a st = (Ok tt, st') →
  ∃ x blk, constructed a = Some x ∧ heap st !! b = Some blk ∧
           off < length blk ∧
           heap st' = <[b := <[off := Obj x]> blk]> (heap st).
Proof.
  unfold construct_from. destruct (constructed a) as [x|]; [|done].
  intros (blk & ? & ? & ?)%construct_Ok. eauto 10.
Qed.

Lemma relocate_Ok (R : ptr → nat → ptr → M T unit)
    bd bs xs spre spost dpre dmid dpost st st' :
  R = uninitialized_copy_n ∨ R = uninitialized_move_n →
  bs ≠ bd →
  heap st !! bs = Some (spre ++ (Obj <$> xs) ++ spost) →
  heap st !! bd = Some (dpre ++ dmid ++ dpost) →
  length dmid = length xs →
  R (Ptr bs (length spre)) (length xs) (Ptr bd (length dpre)) st
    = (Ok tt, st') →
  ∃ ys, length ys = length xs ∧
        heap st' = <[bd := dpre ++ (Obj <$> xs) ++ dpost]>
                     (<[bs := spre ++ (Obj <$> ys) ++ spost]> (heap st)).
Proof.
  intros [-> | ->] Hne Hs Hd Hm Hr.
  - exists xs. split; [done|]. rewrite (insert_id _ bs) by done.
    unfold uninitialized_copy_n in Hr.
    by apply (uninitialized_copy_from_Ok bd (length dpre) bs xs 0 spre spost
                dpre dmid dpost); [| | |lia| |].
  - exists (moved_from <$> xs). split; [by rewrite length_fmap|].
    unfold uninitialized_move_n in Hr.
    by apply (uninitialized_move_from_Ok bd (length dpre) bs xs 0 spre spost
                dpre dmid dpost); [| | |lia| |].
Qed.

Lemma RawMemory_sized_Ok n d st st' :
  n ≠ 0 → RawMemory_sized n st = (Ok d, st') →
  ∃ b, heap st !! b = None ∧ d = mkRaw (Ptr b 0) n ∧
       heap st' = <[b := replicate n Raw]> (heap st).
Proof.
  intros Hn. unfold RawMemory_sized, Allocate, operator_new, bind, ret.
  rewrite decide_True by done. case_decide; [|done].
  intros [= <- <-]. exists (fresh (dom (heap st))). simpl.
  split; [|done]. apply not_elem_of_dom, is_fresh.
Qed.

Lemma RawMemory_dtor_Ok d st st' :
  RawMemory_dtor d st = (Ok tt, st') →
  heap st' = match buffer_ d with
             | nullptr => heap st
             | Ptr b _ => delete b (heap st)
             end.
Proof.
  unfold RawMemory_dtor, Deallocate, operator_delete.
  destruct (buffer_ d) as [|b [|off]]; [by intros [= <-]| |done].
  destruct (heap st !! b); [|done]. by intros [= <-].
Qed.

Lemma load_at this v st : vecs st !! this = Some v → load this st = (Ok v, st).
Proof. unfold load. by intros ->. Qed.

Lemma load_Ok this v st st' :
  load this st = (Ok v, st') → st' = st ∧ vecs st !! this = Some v.
Proof. unfold load. destruct (vecs st !! this); [|done]. by intros [= <- <-]. Qed.

Lemma holds_capacity st this l c : holds st this l c → length l ≤ c.
Proof. intros (v & spare & _ & _ & _ & Hl & _). lia. Qed.

Lemma append_Ok this a l c st st' :
  holds st this l c →
  append this a st = (Ok tt, st') →
  ∃ x c', constructed a = Some x ∧ holds st' this (l ++ [x]) c' ∧ c ≤ c'.
Proof.
  intros (v & spare & Hv & Hsz & Hc & Hlen & Hbuf) Hr.
  unfold append in Hr. rewrite (bind_Ok _ _ _ _ _ (load_at _ _ _ Hv)) in Hr.
  apply bind_inv_Ok in Hr as ([] & s1 & Hbody & Hr).
  apply bind_inv_Ok in Hr as (v' & ? & [-> Hv']%load_Ok & Hst).
  injection Hst as <-.
  unfold Capacity, RawMemory_Capacity, RawMemory_plus, GetAddress in Hbody.
  case_decide as Hfull.
  - (* spare capacity *)
    destruct (buffer_ (data_ v)) as [|b off] eqn:Hb; [lia|].
    destruct Hbuf as [-> Hblk]. simpl in Hbody.
    pose proof (elementwise_vecs _ _ _ _ (elementwise_construct_from _ _) Hbody)
      as Hvs.
    apply construct_from_Ok in Hbody as (x & blk & Hx & Hblk' & Hoff & Hh).
    simplify_eq. exists x, (capacity_ (data_ v)). split; [done|].
    split; [|done]. rewrite Hvs in Hv'. simplify_eq.
    destruct spare as [|s0 spare]; [simpl in *; lia|].
    exists (mkVec (data_ v) (size_ v + 1)), spare. simpl.
    rewrite lookup_insert_eq, Hb, Hh, lookup_insert_eq.
    rewrite length_app, Hsz. simpl in *.
    split_and!; [done|lia|done|lia|done|].
    rewrite insert_app_r_alt, length_fmap, Nat.sub_diag by (rewrite length_fmap; lia).
    simpl. by rewrite fmap_app, <- app_assoc.
  - (* reallocation *)
    assert (spare = []) as -> by (destruct spare; [done|simpl in *; lia]).
    rewrite app_nil_r in Hbuf.
    apply bind_inv_Ok in Hbody as (new_data & s2 & Hnew & Hbody).
    apply RawMemory_sized_Ok in Hnew as (bn & Hfresh & -> & Hh2);
      [|case_decide; lia].
    apply bind_inv_Ok in Hbody as ([] & s3 & Hmove%unwinding_inv_Ok & Hbody).
    simpl in Hmove, Hbody.
    apply bind_inv_Ok in Hbody as ([] & s4 & Hst & Hdtor).
    injection Hst as <-.
    pose proof (elementwise_vecs _ _ _ _ (elementwise_RawMemory_dtor _) Hdtor)
      as Hvs. simpl in Hvs.
    apply RawMemory_dtor_Ok in Hdtor. simpl in Hdtor.
    rewrite Hvs, lookup_insert_eq in Hv'. simplify_eq. simpl.
    apply bind_inv_Ok in Hmove as ([] & s5 & Hnewel & Hmove).
    apply construct_from_Ok in Hnewel as (x & blk & Hx & Hblk & Hoff & Hh5).
    rewrite Hh2, lookup_insert_eq in Hblk. simplify_eq.
    rewrite length_replicate in Hoff.
    rewrite Hh2, insert_insert_eq in Hh5.
    apply bind_inv_Ok in Hmove as ([] & s6 & Hreloc & Hdestroy).
    exists x. eexists. split; [done|].
    set (n := if decide (size_ v = 0) then 1 else size_ v * 2) in *.
    assert (<[size_ v := Obj x]> (replicate n (@Raw T)) =
            [] ++ replicate (size_ v) Raw ++ Obj x :: replicate (n - size_ v - 1) Raw)
      as Hshape.
    { simpl. replace n with (size_ v + S (n - size_ v - 1)) at 1 by lia.
      rewrite replicate_add. rewrite insert_app_r_alt by (rewrite length_replicate; lia).
      by rewrite length_replicate, Nat.sub_diag. }
    rewrite Hshape in Hh5.
    destruct (buffer_ (data_ v)) as [|b off] eqn:Hb.
    + (* the vector had no block *)
      assert (size_ v = 0) as Hz by lia.
      destruct l; [|simpl in *; lia].
      assert (n = 1) as Hn by (subst n; case_decide; lia).
      rewrite Hz in Hreloc, Hdestroy.
      assert (s3 = s5) as ->.
      { simpl in Hreloc. destruct (_ && _); simpl in Hreloc;
          injection Hreloc as <-; simpl in Hdestroy; by injection Hdestroy. }
      split; [|lia].
      exists (mkVec (mkRaw (Ptr bn 0) n) (size_ v + 1)), [].
      simpl. rewrite lookup_insert_eq, Hdtor. simpl. rewrite Hh5, lookup_insert_eq.
      rewrite Hz, Hn. simpl. done.
    + destruct Hbuf as [-> Hblk].
      assert (b ≠ bn) as Hne by congruence.
      assert (∃ R, (R = uninitialized_copy_n ∨ R = uninitialized_move_n) ∧
                   R (Ptr b (length (@nil (slot T)))) (length l)
                     (Ptr bn (length (@nil (slot T)))) s5 = (Ok tt, s6))
        as (R & HR & Hreloc').
      { rewrite <- Hsz. simpl. destruct (_ && _); eauto. }
      eapply (relocate_Ok R bn b l [] [] [] (replicate (size_ v) Raw))
        in Hreloc' as (ys & Hys & Hh6); [|done|done|..].
      * replace (size_ v) with (length (Obj <$> ys)) in Hdestroy
          by (rewrite length_fmap; lia).
        apply (destroy_n_Ok b (Obj <$> ys) [] []) in Hdestroy.
        2:{ by rewrite Hh6, lookup_insert_ne, lookup_insert_eq. }
        split; [|lia].
        exists (mkVec (mkRaw (Ptr bn 0) n) (size_ v + 1)),
          (replicate (n - size_ v - 1) Raw).
        simpl. rewrite lookup_insert_eq, Hdtor. simpl.
        rewrite length_app, length_replicate. simpl.
        split_and!; [done|lia|done|lia|done|].
        rewrite lookup_delete_ne by done.
        rewrite Hdestroy, lookup_insert_ne by done.
        rewrite Hh6, lookup_insert_eq. simpl.
        by rewrite fmap_app, <- app_assoc.
      * rewrite Hh5, lookup_insert_ne by done. simpl. by rewrite Hblk, app_nil_r.
      * rewrite Hh5, lookup_insert_eq. done.
      * by rewrite length_replicate.
Qed.

Lemma move_construct_same_Ok b j i st st' :
  move_construct (Ptr b j) (Ptr b i) st = (Ok tt, st') →
  ∃ blk v,
    heap st !! b = Some blk ∧ blk !! i = Some (Obj v) ∧ j < length blk ∧
    heap st' = <[b := <[i := Obj (moved_from v)]> (<[j := Obj v]> blk)]>
                 (heap st).
Proof.
  unfold move_construct. intros (v & s1 & Hr & Hk)%bind_inv_Ok.
  apply read_Ok in Hr as (-> & blk & Hb & Ho).
  destruct (move_throws v); [done|].
  apply bind_inv_Ok in Hk as ([] & s2 & Hc & Hs).
  apply construct_Ok in Hc as (blk' & Hb' & Hj & Hh). simplify_eq.
  apply set_slot_Ok in Hs as (blk' & Hb' & _ & ->). simpl.
  rewrite Hh, lookup_insert_eq in Hb'. simplify_eq.
  rewrite Hh, insert_insert_eq. eauto 10.
Qed.

Lemma move_assign_Ok b j i st st' :
  move_assign (Ptr b j) (Ptr b i) st = (Ok tt, st') →
  ∃ blk v w,
    heap st !! b = Some blk ∧ blk !! i = Some (Obj v) ∧
    blk !! j = Some (Obj w) ∧
    heap st' = <[b := <[i := Obj (moved_from v)]> (<[j := Obj v]> blk)]>
                 (heap st).
Proof.
  unfold move_assign. intros (v & s1 & Hr & Hk)%bind_inv_Ok.
  apply read_Ok in Hr as (-> & blk & Hb & Ho).
  destruct (move_assign_throws v); [done|].
  apply bind_inv_Ok in Hk as ([] & s2 & Hc & Hs).
  apply assign_Ok in Hc as (blk' & w & Hb' & Hj & Hh). simplify_eq.
  apply set_slot_Ok in Hs as (blk' & Hb' & _ & ->). simpl.
  rewrite Hh, lookup_insert_eq in Hb'. simplify_eq.
  rewrite Hh, insert_insert_eq. eauto 10.
Qed.

Lemma move_loop_Ok b xs : ∀ pre y post st st',
  heap st !! b = Some (pre ++ Obj y :: (Obj <$> xs) ++ post) →
  move_loop (Ptr b (length pre + 1)) (Ptr b (length pre)) (length xs) st
    = (Ok tt, st') →
  ∃ z, heap st' = <[b := pre ++ (Obj <$> xs) ++ Obj z :: post]> (heap st).
Proof.
  induction xs as [|x xs IH]; intros pre y post st st' Hb; simpl.
  - intros [= <-]. exists y. by rewrite insert_id.
  - intros ([] & s1 & Hm & Hk)%bind_inv_Ok.
    apply move_assign_Ok in Hm as (blk & v & w & Hb' & Hv & _ & Hh).
    simplify_eq. simpl in Hv.
    rewrite lookup_app_r, Nat.add_comm, Nat.add_sub in Hv by lia.
    simpl in Hv. simplify_eq.
    rewrite (insert_app_r_alt pre), Nat.sub_diag in Hh by lia.
    rewrite (insert_app_r_alt pre), Nat.add_comm, Nat.add_sub in Hh by lia.
    simpl in Hh.
    replace (length pre + 1) with (length (pre ++ [Obj v])) in Hk
      by (rewrite length_app; simpl; lia).
    apply (IH _ (moved_from v) post) in Hk as [z Hz].
    + exists z. rewrite Hz, Hh, insert_insert_eq. by rewrite <- app_assoc.
    + rewrite Hh, lookup_insert_eq. by rewrite <- app_assoc.
Qed.

Lemma ptr_dec_S b k st : ptr_dec (Ptr b (S k)) st = (Ok (Ptr b k), st).
Proof. done. Qed.

Lemma move_backward_loop_Ok b xs : ∀ pre y post st st',
  heap st !! b = Some (pre ++ (Obj <$> xs) ++ Obj y :: post) →
  move_backward_loop (Ptr b (length pre + length xs))
    (Ptr b (S (length pre + length xs))) (length xs) st = (Ok tt, st') →
  ∃ z, heap st' = <[b := pre ++ Obj z :: (Obj <$> xs) ++ post]> (heap st).
Proof.
  induction xs as [|x xs IH] using rev_ind; intros pre y post st st' Hb.
  - simpl. intros [= <-]. exists y. by rewrite insert_id.
  - rewrite length_app. simpl length.
    replace (length xs + 1) with (S (length xs)) by lia.
    rewrite Nat.add_succ_r. cbn [move_backward_loop].
    rewrite !(bind_Ok _ _ _ _ _ (ptr_dec_S _ _ _)).
    intros ([] & s1 & Hm & Hk)%bind_inv_Ok.
    apply move_assign_Ok in Hm as (blk & v & w & Hb' & Hv & _ & Hh).
    simplify_eq. rewrite fmap_app in Hv, Hh. simpl in Hv, Hh.
    rewrite <- !app_assoc in Hv, Hh. simpl in Hv, Hh.
    rewrite app_assoc in Hv, Hh.
    rewrite list_lookup_middle in Hv
      by (rewrite length_app, length_fmap; lia).
    simplify_eq.
    rewrite (insert_app_r_alt (pre ++ _)) in Hh
      by (rewrite length_app, length_fmap; lia).
    rewrite (insert_app_r_alt (pre ++ _)) in Hh
      by (rewrite length_app, length_fmap; lia).
    rewrite length_app, length_fmap in Hh.
    replace (S (length pre + length xs) - (length pre + length xs)) with 1
      in Hh by lia.
    rewrite Nat.sub_diag in Hh. simpl in Hh.
    rewrite <- app_assoc in Hh.
    apply (IH pre (moved_from v) (Obj v :: post)) in Hk as [z Hz].
    + exists z. rewrite Hz, Hh, insert_insert_eq.
      rewrite fmap_app. simpl. by rewrite <- !app_assoc.
    + by rewrite Hh, lookup_insert_eq.
Qed.

Lemma distance_at b i j st :
  i ≤ j → distance (Ptr b i) (Ptr b j) st = (Ok (j - i), st).
Proof. intros Hle. unfold distance. by rewrite decide_True. Qed.

Lemma Erase_Ok this p l c v it st st' :
  holds st this l c → vecs st !! this = Some v → p < length l →
  Erase this (begin_ v +ₚ p) st = (Ok it, st') →
  holds st' this (take p l ++ drop (S p) l) c.
Proof.
  intros (v0 & spare & Hv & Hsz & Hc & Hlen & Hbuf) Hv' Hp Hr.
  rewrite Hv in Hv'. injection Hv' as ->.
  destruct (buffer_ (data_ v)) as [|b off] eqn:Hb; [lia|].
  destruct Hbuf as [-> Hblk].
  destruct (lookup_lt_is_Some_2 l p Hp) as [y Hy].
  pose proof (take_drop_middle l p y Hy) as Hl.
  set (l1 := take p l) in *. set (l2 := drop (S p) l) in *.
  assert (length l1 = p) as Hl1 by (subst l1; rewrite length_take; lia).
  clearbody l1 l2. subst l p. clear Hy Hp.
  rewrite length_app in Hsz, Hlen. simpl in Hsz, Hlen.
  rewrite fmap_app in Hblk. simpl in Hblk. rewrite <- app_assoc in Hblk.
  simpl in Hblk.
  unfold Erase in Hr. rewrite (bind_Ok _ _ _ _ _ (load_at _ _ _ Hv)) in Hr.
  unfold begin_, end_, GetAddress, RawMemory_plus, std_move in Hr.
  rewrite Hb in Hr. cbn [ptr_add] in Hr.
  rewrite (bind_Ok _ _ _ _ _ (distance_at _ _ _ _ (Nat.le_add_r 0 _))) in Hr.
  apply bind_inv_Ok in Hr as ([] & s1 & Hmove & Hr).
  assert (0 + (0 + length l1 - 0) + 1 ≤ 0 + size_ v) as Hle by lia.
  rewrite (bind_Ok _ _ _ _ _ (distance_at _ _ _ _ Hle)) in Hmove.
  replace (0 + size_ v - (0 + (0 + length l1 - 0) + 1)) with (length l2)
    in Hmove by lia.
  replace (0 + (0 + length l1 - 0) + 1) with (length (Obj <$> l1) + 1)
    in Hmove by (rewrite length_fmap; lia).
  replace (0 + (0 + length l1 - 0)) with (length (Obj <$> l1)) in Hmove
    by (rewrite length_fmap; lia).
  pose proof (elementwise_vecs _ _ _ _ (elementwise_move_loop _ _ _) Hmove)
    as Hvs1.
  apply (move_loop_Ok b l2 (Obj <$> l1) y spare) in Hmove as [z Hz];
    [|done].
  replace (0 + size_ v) with (S (length l1 + length l2)) in Hr by lia.
  rewrite (bind_Ok _ _ _ _ _ (ptr_dec_S _ _ _)) in Hr.
  apply bind_inv_Ok in Hr as ([] & s2 & Hd & Hr).
  pose proof (elementwise_vecs _ _ _ _ (elementwise_destroy_n _ _) Hd) as Hvs2.
  replace (length l1 + length l2)
    with (length ((Obj <$> l1) ++ (Obj <$> l2))) in Hd
    by (rewrite length_app, !length_fmap; lia).
  apply (destroy_n_Ok b [Obj z] _ spare) in Hd.
  2:{ rewrite Hz, lookup_insert_eq. by rewrite <- app_assoc. }
  rewrite Hsz in Hr. replace (length l1 + S (length l2))
    with (S (length l1 + length l2)) in Hr by lia.
  cbn [decrement] in Hr.
  apply bind_inv_Ok in Hr as (k & s3 & [= <- <-] & Hr).
  apply bind_inv_Ok in Hr as ([] & s4 & Hst & Hret).
  injection Hret as <- <-. injection Hst as <-.
  exists (mkVec (data_ v) (length l1 + length l2)), (Raw :: spare). simpl.
  rewrite lookup_insert_eq, Hb, Hd, lookup_insert_eq.
  rewrite length_app. simpl in *.
  split_and!; [done|lia|done|lia|done|].
  by rewrite fmap_app, <- app_assoc.
Qed.

Lemma distance_begin p buf st :
  (buf = nullptr → p = 0) →
  (∀ b off, buf = Ptr b off → off = 0) →
  distance buf (buf +ₚ p) st = (Ok p, st).
Proof.
  intros Hnull Hoff. destruct buf as [|b off]; simpl.
  - by rewrite Hnull.
  - rewrite (Hoff b off eq_refl). rewrite decide_True by (split; [done|lia]).
    by rewrite Nat.sub_0_r.
Qed.

Lemma Emplace_Ok this p l c v a it st st' :
  holds st this l c → vecs st !! this = Some v → p ≤ length l →
  Emplace this (begin_ v +ₚ p) a st = (Ok it, st') →
  ∃ x c' v',
    constructed a = Some x ∧
    holds st' this (take p l ++ x :: drop p l) c' ∧ c ≤ c' ∧
    vecs st' !! this = Some v' ∧ it = begin_ v' +ₚ p.
Proof.
  intros (v0 & spare & Hv & Hsz & Hc & Hlen & Hbuf) Hv' Hp Hr.
  rewrite Hv in Hv'. injection Hv' as ->.
  pose proof (take_drop p l) as Hl.
  set (l1 := take p l) in *. set (l2 := drop p l) in *.
  assert (length l1 = p) as Hl1 by (subst l1; rewrite length_take; lia).
  clearbody l1 l2. subst l p. clear Hp.
  rewrite length_app in Hsz, Hlen.
  unfold Emplace in Hr. rewrite (bind_Ok _ _ _ _ _ (load_at _ _ _ Hv)) in Hr.
  unfold begin_, end_, GetAddress, RawMemory_plus, RawMemory_index, Capacity,
    RawMemory_Capacity in Hr.
  assert (buffer_ (data_ v) = nullptr → length l1 = 0) as Hnull.
  { intros Hnull. rewrite Hnull in Hbuf. lia. }
  assert (∀ b off, buffer_ (data_ v) = Ptr b off → off = 0) as Hoff.
  { intros b off Hb. rewrite Hb in Hbuf. by destruct Hbuf. }
  rewrite (bind_Ok _ _ _ _ _ (distance_begin _ _ _ Hnull Hoff)) in Hr.
  clear Hnull Hoff.
  apply bind_inv_Ok in Hr as ([] & s1 & Hbody & Hr).
  apply bind_inv_Ok in Hr as (v' & ? & [-> Hv']%load_Ok & Hr).
  apply bind_inv_Ok in Hr as ([] & s2 & Hst & Hret).
  injection Hst as <-. injection Hret as <- <-.
  case_decide as Hfull.
  - (* spare capacity *)
    destruct (buffer_ (data_ v)) as [|b off] eqn:Hb; [lia|].
    destruct Hbuf as [-> Hblk]. cbn [ptr_add] in Hbody.
    destruct spare as [|s0 spare]; [simpl in *; lia|].
    case_decide as Hend.
    + (* before the end *)
      destruct (constructed a) as [t|] eqn:Ht; [|done].
      destruct l2 as [|y l2 _] using rev_ind; [simpl in *; lia|].
      rewrite length_app in Hsz, Hlen. simpl in Hsz, Hlen.
      rewrite !fmap_app in Hblk. simpl in Hblk.
      rewrite <- !app_assoc in Hblk. simpl in Hblk.
      assert (vecs s1 = vecs st) as Hvs.
      { eapply elementwise_vecs; [|exact Hbody]. solve_elementwise. }
      apply bind_inv_Ok in Hbody as ([] & s3 & Hmc & Hbody).
      apply move_construct_same_Ok in Hmc as (blk & w & Hblk' & Hw & _ & Hh3).
      rewrite Hblk in Hblk'. injection Hblk' as <-.
      rewrite app_assoc in Hw, Hh3.
      rewrite list_lookup_middle in Hw
        by (rewrite length_app, !length_fmap; lia).
      injection Hw as <-.
      rewrite (insert_app_r_alt (_ ++ _)) in Hh3
        by (rewrite length_app, !length_fmap; lia).
      rewrite (insert_app_r_alt (_ ++ _)) in Hh3
        by (rewrite length_app, !length_fmap; lia).
      rewrite length_app, !length_fmap in Hh3.
      replace (0 + size_ v - (length l1 + length l2)) with 1 in Hh3 by lia.
      replace (0 + (size_ v - 1) - (length l1 + length l2)) with 0 in Hh3
        by lia.
      simpl in Hh3. rewrite <- app_assoc in Hh3.
      replace (0 + size_ v) with (S (length l1 + length l2)) in Hbody by lia.
      rewrite (bind_Ok _ _ _ _ _ (ptr_dec_S _ _ _)) in Hbody.
      apply bind_inv_Ok in Hbody as ([] & s4 & Hmb & Hbody).
      unfold move_backward in Hmb.
      assert (0 + length l1 ≤ length l1 + length l2) as Hle by lia.
      rewrite (bind_Ok _ _ _ _ _ (distance_at _ _ _ _ Hle)) in Hmb.
      replace (length l1 + length l2 - (0 + length l1)) with (length l2)
        in Hmb by lia.
      replace (length l1 + length l2)
        with (length (Obj <$> l1) + length l2) in Hmb
        by (rewrite length_fmap; lia).
      apply (move_backward_loop_Ok b l2 (Obj <$> l1) (moved_from y)
               (Obj y :: spare)) in Hmb as [z Hz].
      2:{ by rewrite Hh3, lookup_insert_eq. }
      destruct (move_assign_throws t); [done|].
      apply assign_Ok in Hbody as (blk & w & Hblk' & _ & Hh1).
      rewrite Hz, lookup_insert_eq in Hblk'. injection Hblk' as <-.
      rewrite insert_app_r_alt in Hh1 by (rewrite length_fmap; lia).
      rewrite length_fmap in Hh1.
      replace (0 + length l1 - length l1) with 0 in Hh1 by lia.
      simpl in Hh1.
      rewrite Hvs, Hv in Hv'. injection Hv' as <-.
      exists t, (capacity_ (data_ v)), (mkVec (data_ v) (size_ v + 1)).
      split; [done|]. split; [|split; [lia|]].
      * exists (mkVec (data_ v) (size_ v + 1)), spare. simpl.
        rewrite lookup_insert_eq, Hb, Hh1, lookup_insert_eq.
        rewrite !length_app. simpl. rewrite length_app. simpl.
        split_and!; [done|lia|done|lia|done|].
        rewrite !fmap_app. simpl. rewrite fmap_app. simpl.
        by repeat (rewrite <- app_assoc; simpl).
      * simpl. rewrite lookup_insert_eq. split; [done|].
        unfold begin_, GetAddress. simpl. by rewrite Hb.
    + (* at the end *)
      assert (l2 = []) as -> by (destruct l2; [done|simpl in *; lia]).
      rewrite app_nil_r in Hblk. simpl in Hsz.
      pose proof (elementwise_vecs _ _ _ _ (elementwise_construct_from _ _)
                    Hbody) as Hvs.
      apply construct_from_Ok in Hbody as (x & blk & Hx & Hblk' & _ & Hh).
      rewrite Hblk in Hblk'. injection Hblk' as <-.
      rewrite insert_app_r_alt in Hh by (rewrite length_fmap; lia).
      rewrite length_fmap in Hh.
      replace (0 + length l1 - length l1) with 0 in Hh by lia. simpl in Hh.
      rewrite Hvs, Hv in Hv'. injection Hv' as <-.
      exists x, (capacity_ (data_ v)), (mkVec (data_ v) (size_ v + 1)).
      split; [done|]. split; [|split; [lia|]].
      * exists (mkVec (data_ v) (size_ v + 1)), spare. simpl.
        rewrite lookup_insert_eq, Hb, Hh, lookup_insert_eq.
        rewrite !length_app. simpl in *.
        split_and!; [done|lia|done|lia|done|].
        rewrite !fmap_app. simpl.
        by repeat (rewrite <- app_assoc; simpl).
      * simpl. rewrite lookup_insert_eq. split; [done|].
        unfold begin_, GetAddress. simpl. by rewrite Hb.
  - (* reallocation *)
    assert (spare = []) as -> by (destruct spare; [done|simpl in *; lia]).
    rewrite app_nil_r in Hbuf.
    apply bind_inv_Ok in Hbody as (new_data & s2 & Hnew & Hbody).
    apply RawMemory_sized_Ok in Hnew as (bn & Hfresh & -> & Hh2);
      [|case_decide; lia].
    set (n := if decide (size_ v = 0) then 1 else size_ v * 2) in *.
    assert (size_ v < n) as Hn by (subst n; case_decide; lia).
    apply bind_inv_Ok in Hbody as ([] & s3 & Hinner%unwinding_inv_Ok & Hbody).
    cbn [buffer_ capacity_ ptr_add] in Hinner, Hbody.
    apply bind_inv_Ok in Hbody as ([] & s4 & Hst & Hdtor).
    injection Hst as <-.
    pose proof (elementwise_vecs _ _ _ _ (elementwise_RawMemory_dtor _) Hdtor)
      as Hvs. simpl in Hvs.
    apply RawMemory_dtor_Ok in Hdtor. simpl in Hdtor.
    rewrite Hvs, lookup_insert_eq in Hv'. injection Hv' as <-.
    apply bind_inv_Ok in Hinner as ([] & s5 & Hnewel%unwinding_inv_Ok & Hinner).
    apply construct_from_Ok in Hnewel as (x & blk & Hx & Hblk & Hoff & Hh5).
    rewrite Hh2, lookup_insert_eq in Hblk. injection Hblk as <-.
    rewrite Hh2, insert_insert_eq in Hh5.
    assert (<[0 + length l1 := Obj x]> (replicate n (@Raw T)) =
            replicate (length l1) Raw ++ Obj x ::
              replicate (length l2) Raw ++ replicate (n - size_ v - 1) Raw)
      as Hshape.
    { replace n
        with (length l1 + S (length l2 + (n - size_ v - 1))) at 1 by lia.
      rewrite replicate_add, insert_app_r_alt
        by (rewrite length_replicate; lia).
      rewrite length_replicate.
      replace (0 + length l1 - length l1) with 0 by lia.
      simpl. by rewrite replicate_add. }
    rewrite Hshape in Hh5. clear Hshape Hoff.
    apply bind_inv_Ok in Hinner as ([] & s6 & Hprefix & Hinner).
    apply bind_inv_Ok in Hinner as ([] & s7 & Hsuffix%unwinding_inv_Ok & Hdestroy).
    apply bind_inv_Ok in Hsuffix as (k & ? & Hk & Hsuffix).
    unfold count_from in Hk. case_decide; [|done]. injection Hk as <- <-.
    replace (size_ v - length l1) with (length l2) in Hsuffix by lia.
    exists x, n, (mkVec (mkRaw (Ptr bn 0) n) (size_ v + 1)).
    split; [done|]. split; [|split; [lia|]].
    2:{ simpl. by rewrite lookup_insert_eq. }
    assert (∃ R, (R = uninitialized_copy_n ∨ R = uninitialized_move_n) ∧
                 R (buffer_ (data_ v)) (length l1) (Ptr bn 0) s5
                   = (Ok tt, s6) ∧
                 R (buffer_ (data_ v) +ₚ length l1) (length l2)
                   (Ptr bn (0 + length l1 + 1)) s6 = (Ok tt, s7))
      as (R & HR & Hpre & Hsuf).
    { destruct (_ || _); [eauto 10|].
      apply unwinding_inv_Ok in Hprefix. eauto 10. }
    clear Hprefix Hsuffix.
    destruct (buffer_ (data_ v)) as [|b off] eqn:Hb.
    + (* the vector had no block *)
      assert (l1 = []) as -> by (destruct l1; [done|simpl in *; lia]).
      assert (l2 = []) as -> by (destruct l2; [done|simpl in *; lia]).
      simpl in *.
      assert (s3 = s5) as ->.
      { rewrite Hsz in Hdestroy.
        destruct HR as [-> | ->]; cbv in Hpre, Hsuf, Hdestroy; congruence. }
      exists (mkVec (mkRaw (Ptr bn 0) n) (size_ v + 1)),
        (replicate (n - size_ v - 1) Raw).
      simpl. rewrite lookup_insert_eq, Hdtor, Hh5, lookup_insert_eq.
      rewrite length_replicate.
      split_and!; [done|lia|done|lia|done|].
      by replace (n - size_ v - 1) with (n - 0 - 1) by lia.
    + destruct Hbuf as [-> Hblk]. cbn [ptr_add] in Hsuf.
      assert (b ≠ bn) as Hne by congruence.
      rewrite fmap_app in Hblk.
      apply (relocate_Ok R bn b l1 [] (Obj <$> l2) []
               (replicate (length l1) Raw)
               (Obj x :: replicate (length l2) Raw ++
                  replicate (n - size_ v - 1) Raw)) in Hpre
        as (ys1 & Hys1 & Hh6); [|done|done|..].
      2:{ by rewrite Hh5, lookup_insert_ne. }
      2:{ by rewrite Hh5, lookup_insert_eq. }
      2:{ by rewrite length_replicate. }
      replace (0 + length l1) with (length (Obj <$> ys1)) in Hsuf
        by (rewrite length_fmap; lia).
      replace (length (Obj <$> ys1) + 1)
        with (length ((Obj <$> l1) ++ [@Obj T x])) in Hsuf
        by (rewrite length_app, !length_fmap; simpl; lia).
      apply (relocate_Ok R bn b l2 (Obj <$> ys1) []
               ((Obj <$> l1) ++ [Obj x])
               (replicate (length l2) Raw)
               (replicate (n - size_ v - 1) Raw)) in Hsuf
        as (ys2 & Hys2 & Hh7); [|done|done|..].
      2:{ rewrite Hh6, lookup_insert_ne, lookup_insert_eq by done.
          simpl. by rewrite app_nil_r. }
      2:{ rewrite Hh6, lookup_insert_eq. simpl.
          by rewrite <- app_assoc. }
      2:{ by rewrite length_replicate. }
      replace (size_ v) with (length ((Obj <$> ys1) ++ (Obj <$> ys2)))
        in Hdestroy by (rewrite length_app, !length_fmap; lia).
      apply (destroy_n_Ok b _ [] []) in Hdestroy.
      2:{ rewrite Hh7, lookup_insert_ne, lookup_insert_eq by done.
          simpl. by rewrite !app_nil_r. }
      exists (mkVec (mkRaw (Ptr bn 0) n) (size_ v + 1)),
        (replicate (n - size_ v - 1) Raw).
      simpl. rewrite lookup_insert_eq, Hdtor.
      rewrite lookup_delete_ne by done.
      rewrite Hdestroy, lookup_insert_ne by done.
      rewrite Hh7, lookup_insert_eq.
      rewrite !length_app, length_replicate. simpl.
      split_and!; [done|lia|done|lia|done|].
      rewrite !fmap_app. simpl.
      by repeat (rewrite <- app_assoc; simpl).
Qed.
Lemma insert_at_Ok this p c l cap v it (st st' : state T) :
  holds st this l cap → vecs st !! this = Some v → p ≤ length l →
  insert_at this (begin_ v +ₚ p) c st = (Ok it, st') →
  ∃ cap' v',
    holds st' this (take p l ++ value_of c :: drop p l) cap' ∧
    vecs st' !! this = Some v' ∧ it = begin_ v' +ₚ p.
Proof.
  intros Hh Hv Hp Hr.
  assert (∃ a, Emplace this (begin_ v +ₚ p) a st = (Ok it, st') ∧
               ∀ x, constructed a = Some x → x = value_of c)
    as (a & Ha & Hx).
  { destruct c as [value|value]; simpl in *.
    - exists (ByCopy value). split; [done|]. simpl. intros x.
      by destruct (copy_throws value); intros [= <-].
    - exists (ByMove value). split; [done|]. simpl. intros x.
      by destruct (move_throws value); intros [= <-]. }
  destruct (Emplace_Ok _ _ _ _ _ _ _ _ _ Hh Hv Hp Ha)
    as (x & cap' & v' & Hc & Hh' & _ & Hv' & Hit).
  rewrite (Hx x Hc) in Hh'. eauto.
Qed.

Lemma RawMemory_sized_run n (st : state T) :
  n ≠ 0 →
  RawMemory_sized n st =
    if decide (n ≤ avail st) then
      (Ok (mkRaw (Ptr (fresh (dom (heap st))) 0) n),
       mkState (<[fresh (dom (heap st)) := replicate n Raw]> (heap st))
               (avail st - n) (vecs st) (log st))
    else (Throw, st).
Proof.
  intros Hn. unfold RawMemory_sized, Allocate, operator_new, bind, ret.
  rewrite decide_True by done. by case_decide.
Qed.

End Heap.

(** ** Runs that return

    When no constructor or assignment of the element type throws, the
    operations return from every state in which the vector is well formed and
    the allocator has room: no access leaves the blocks. *)

Section Returns.
Context {T : Type} `{Element T}.
Implicit Types (st : state T) (blk : list (slot T)) (xs : list T).

Hypothesis copy_nothrow : ∀ v : T, copy_throws v = false.
Hypothesis move_nothrow : ∀ v : T, move_throws v = false.
Hypothesis move_assign_nothrow : ∀ v : T, move_assign_throws v = false.

Lemma unwinding_Ok {A} (h : M T unit) (body : M T A) st a st1 :
  body st = (Ok a, st1) → unwinding h body st = (Ok a, st1).
Proof. unfold unwinding. by intros ->. Qed.

Lemma construct_at b off blk v st :
  heap st !! b = Some blk → off < length blk →
  ∃ st', construct (Ptr b off) v st = (Ok tt, st').
Proof.
  intros Hb Ho. unfold construct.
  rewrite (bind_Ok _ _ _ _ _ (set_slot_at _ _ _ _ _ Hb Ho)). eauto.
Qed.

Lemma destroy_at_at b off blk v st :
  heap st !! b = Some blk → blk !! off = Some (Obj v) →
  ∃ st', destroy_at (Ptr b off) st = (Ok tt, st').
Proof.
  intros Hb Ho. unfold destroy_at.
  rewrite (bind_Ok _ _ _ _ _ (read_at _ _ _ _ _ Hb Ho)).
  rewrite (bind_Ok _ _ _ _ _ (set_slot_at _ _ _ _ _ Hb (lookup_lt_Some _ _ _ Ho))).
  eauto.
Qed.

Lemma assign_at b off blk v w st :
  heap st !! b = Some blk → blk !! off = Some (Obj w) →
  ∃ st', assign (Ptr b off) v st = (Ok tt, st').
Proof.
  intros Hb Ho. unfold assign.
  rewrite (bind_Ok _ _ _ _ _ (read_at _ _ _ _ _ Hb Ho)).
  rewrite (bind_Ok _ _ _ _ _ (set_slot_at _ _ _ _ _ Hb (lookup_lt_Some _ _ _ Ho))).
  eauto.
Qed.

Lemma copy_construct_at bd j bs i sblk dblk v st :
  heap st !! bs = Some sblk → sblk !! i = Some (Obj v) →
  heap st !! bd = Some dblk → j < length dblk →
  ∃ st', copy_construct (Ptr bd j) (Ptr bs i) st = (Ok tt, st').
Proof.
  intros Hs Hi Hd Hj. unfold copy_construct.
  rewrite (bind_Ok _ _ _ _ _ (read_at _ _ _ _ _ Hs Hi)), copy_nothrow.
  by eapply construct_at.
Qed.

Lemma move_construct_at bd j bs i sblk dblk v st :
  heap st !! bs = Some sblk → sblk !! i = Some (Obj v) →
  heap st !! bd = Some dblk → j < length dblk →
  ∃ st', move_construct (Ptr bd j) (Ptr bs i) st = (Ok tt, st').
Proof.
  intros Hs Hi Hd Hj. unfold move_construct.
  rewrite (bind_Ok _ _ _ _ _ (read_at _ _ _ _ _ Hs Hi)), move_nothrow.
  destruct (construct_at bd j dblk v st Hd Hj) as [s1 Hc].
  rewrite (bind_Ok _ _ _ _ _ Hc).
  apply construct_Ok in Hc as (blk & Hb & _ & Hh). simplify_eq.
  destruct (decide (bs = bd)) as [->|Hne].
  - simplify_eq. erewrite set_slot_at; [eauto| |].
    + by rewrite Hh, lookup_insert_eq.
    + rewrite length_insert. by eapply lookup_lt_Some.
  - erewrite set_slot_at; [eauto| |].
    + by rewrite Hh, lookup_insert_ne.
    + by eapply lookup_lt_Some.
Qed.

Lemma move_assign_at b j i blk v w st :
  heap st !! b = Some blk → blk !! i = Some (Obj v) →
  blk !! j = Some (Obj w) →
  ∃ st', move_assign (Ptr b j) (Ptr b i) st = (Ok tt, st').
Proof.
  intros Hb Hi Hj. unfold move_assign.
  rewrite (bind_Ok _ _ _ _ _ (read_at _ _ _ _ _ Hb Hi)), move_assign_nothrow.
  destruct (assign_at b j blk v w st Hb Hj) as [s1 Hc].
  rewrite (bind_Ok _ _ _ _ _ Hc).
  apply assign_Ok in Hc as (blk' & w' & Hb' & _ & Hh). simplify_eq.
  erewrite set_slot_at; [eauto| |].
  - by rewrite Hh, lookup_insert_eq.
  - rewrite length_insert. by eapply lookup_lt_Some.
Qed.

Lemma destroy_n_returns b xs : ∀ pre post st,
  heap st !! b = Some (pre ++ (Obj <$> xs) ++ post) →
  ∃ st', destroy_n (Ptr b (length pre)) (length xs) st = (Ok tt, st').
Proof.
  induction xs as [|x xs IH]; intros pre post st Hb; simpl; [by eexists|].
  destruct (destroy_at_at b (length pre) _ x st Hb) as [s1 Hd].
  { by apply list_lookup_middle. }
  rewrite (bind_Ok _ _ _ _ _ Hd).
  apply destroy_at_Ok in Hd as (blk & v & Hb' & _ & Hh). simplify_eq.
  rewrite insert_app_r_alt, Nat.sub_diag in Hh by lia. simpl in Hh.
  replace (length pre + 1) with (length (pre ++ [@Raw T]))
    by (rewrite length_app; simpl; lia).
  apply (IH _ post). rewrite Hh, lookup_insert_eq. by rewrite <- app_assoc.
Qed.

Lemma uninitialized_copy_from_returns bd dj bs xs :
  ∀ done spre spost dpre dmid dpost st,
    bs ≠ bd →
    heap st !! bs = Some (spre ++ (Obj <$> xs) ++ spost) →
    heap st !! bd = Some (dpre ++ dmid ++ dpost) →
    length dpre = dj + done → length dmid = length xs →
    ∃ st', uninitialized_copy_from (Ptr bd dj) done (Ptr bs (length spre))
             (length xs) st = (Ok tt, st').
Proof.
  induction xs as [|x xs IH];
    intros done spre spost dpre dmid dpost st Hne Hs Hd Hl Hm; simpl;
    [by eexists|].
  destruct dmid as [|d0 dmid]; [done|]. simpl in Hm, Hs, Hd.
  edestruct (copy_construct_at bd (dj + done) bs (length spre)) as [s1 Hc];
    [exact Hs|by apply list_lookup_middle|exact Hd| |].
  { rewrite length_app. simpl. lia. }
  rewrite (bind_Ok _ _ _ _ _ (unwinding_Ok _ _ _ _ _ Hc)).
  apply copy_construct_Ok in Hc as (sblk & dblk & v & Hs' & Hv & Hd' & _ & Hh).
  simplify_eq.
  rewrite <- Hl, insert_app_r_alt, Nat.sub_diag in Hh by lia. simpl in Hh.
  replace (length spre + 1) with (length (spre ++ [Obj x]))
    by (rewrite length_app; simpl; lia).
  apply (IH _ _ spost (dpre ++ [Obj v]) dmid dpost); [done| | | |lia].
  - rewrite Hh, lookup_insert_ne by done. by rewrite <- app_assoc.
  - rewrite Hh, lookup_insert_eq. by rewrite <- app_assoc.
  - rewrite length_app. simpl. lia.
Qed.

Lemma uninitialized_move_from_returns bd dj bs xs :
  ∀ done spre spost dpre dmid dpost st,
    bs ≠ bd →
    heap st !! bs = Some (spre ++ (Obj <$> xs) ++ spost) →
    heap st !! bd = Some (dpre ++ dmid ++ dpost) →
    length dpre = dj + done → length dmid = length xs →
    ∃ st', uninitialized_move_from (Ptr bd dj) done (Ptr bs (length spre))
             (length xs) st = (Ok tt, st').
Proof.
  induction xs as [|x xs IH];
    intros done spre spost dpre dmid dpost st Hne Hs Hd Hl Hm; simpl;
    [by eexists|].
  destruct dmid as [|d0 dmid]; [done|]. simpl in Hm, Hs, Hd.
  edestruct (move_construct_at bd (dj + done) bs (length spre)) as [s1 Hc];
    [exact Hs|by apply list_lookup_middle|exact Hd| |].
  { rewrite length_app. simpl. lia. }
  rewrite (bind_Ok _ _ _ _ _ (unwinding_Ok _ _ _ _ _ Hc)).
  apply move_construct_Ok in Hc
      as (sblk & dblk & v & Hs' & Hv & Hd' & _ & Hh); [|done].
  simplify_eq. rewrite list_lookup_middle in Hv by done. simplify_eq.
  rewrite <- Hl, (insert_app_r_alt dpre), Nat.sub_diag in Hh by lia.
  rewrite (insert_app_r_alt spre), Nat.sub_diag in Hh by lia.
  simpl in Hh.
  replace (length spre + 1) with (length (spre ++ [Obj (moved_from v)]))
    by (rewrite length_app; simpl; lia).
  apply (IH _ _ spost (dpre ++ [Obj v]) dmid dpost); [done| | | |lia].
  - rewrite Hh, lookup_insert_eq. by rewrite <- app_assoc.
  - rewrite Hh, lookup_insert_ne, lookup_insert_eq by done.
    by rewrite <- app_assoc.
  - rewrite length_app. simpl. lia.
Qed.

Lemma relocate_returns (R : ptr → nat → ptr → M T unit)
    bd bs xs spre spost dpre dmid dpost st :
  R = uninitialized_copy_n ∨ R = uninitialized_move_n →
  bs ≠ bd →
  heap st !! bs = Some (spre ++ (Obj <$> xs) ++ spost) →
  heap st !! bd = Some (dpre ++ dmid ++ dpost) →
  length dmid = length xs →
  ∃ st', R (Ptr bs (length spre)) (length xs) (Ptr bd (length dpre)) st
         = (Ok tt, st').
Proof.
  intros [-> | ->] Hne Hs Hd Hm.
  - by apply (uninitialized_copy_from_returns bd (length dpre) bs xs 0 spre
                spost dpre dmid dpost); [| | |lia|].
  - by apply (uninitialized_move_from_returns bd (length dpre) bs xs 0 spre
                spost dpre dmid dpost); [| | |lia|].
Qed.

Lemma move_loop_returns b xs : ∀ pre y post st,
  heap st !! b = Some (pre ++ Obj y :: (Obj <$> xs) ++ post) →
  ∃ st', move_loop (Ptr b (length pre + 1)) (Ptr b (length pre)) (length xs) st
         = (Ok tt, st').
Proof.
  induction xs as [|x xs IH]; intros pre y post st Hb; simpl; [by eexists|].
  destruct (move_assign_at b (length pre) (length pre + 1) _ x y st Hb)
    as [s1 Hm].
  { rewrite lookup_app_r, Nat.add_comm, Nat.add_sub by lia. done. }
  { by apply list_lookup_middle. }
  rewrite (bind_Ok _ _ _ _ _ Hm).
  apply move_assign_Ok in Hm as (blk & v & w & Hb' & Hv & _ & Hh).
  simplify_eq. simpl in Hv.
  rewrite lookup_app_r, Nat.add_comm, Nat.add_sub in Hv by lia.
  simpl in Hv. simplify_eq.
  rewrite (insert_app_r_alt pre), Nat.sub_diag in Hh by lia.
  rewrite (insert_app_r_alt pre), Nat.add_comm, Nat.add_sub in Hh by lia.
  simpl in Hh.
  replace (length pre + 1) with (length (pre ++ [Obj v]))
    by (rewrite length_app; simpl; lia).
  apply (IH _ (moved_from v) post).
  rewrite Hh, lookup_insert_eq. by rewrite <- app_assoc.
Qed.

Lemma move_backward_loop_returns b xs : ∀ pre y post st,
  heap st !! b = Some (pre ++ (Obj <$> xs) ++ Obj y :: post) →
  ∃ st', move_backward_loop (Ptr b (length pre + length xs))
           (Ptr b (S (length pre + length xs))) (length xs) st = (Ok tt, st').
Proof.
  induction xs as [|x xs IH] using rev_ind; intros pre y post st Hb;
    [by eexists|].
  rewrite length_app. simpl length.
  replace (length xs + 1) with (S (length xs)) by lia.
  rewrite Nat.add_succ_r. cbn [move_backward_loop].
  rewrite !(bind_Ok _ _ _ _ _ (ptr_dec_S _ _ _)).
  rewrite fmap_app in Hb. simpl in Hb.
  rewrite <- !app_assoc in Hb. simpl in Hb. rewrite app_assoc in Hb.
  destruct (move_assign_at b (S (length pre + length xs))
              (length pre + length xs) _ x y st Hb) as [s1 Hm].
  { apply list_lookup_middle. by rewrite length_app, length_fmap. }
  { rewrite lookup_app_r by (rewrite length_app, length_fmap; lia).
    rewrite length_app, length_fmap.
    by replace (S (length pre + length xs) - (length pre + length xs))
      with 1 by lia. }
  rewrite (bind_Ok _ _ _ _ _ Hm).
  apply move_assign_Ok in Hm as (blk & v & w & Hb' & Hv & _ & Hh).
  simplify_eq.
  rewrite list_lookup_middle in Hv by (rewrite length_app, length_fmap; lia).
  simplify_eq.
  rewrite (insert_app_r_alt (pre ++ _)) in Hh
    by (rewrite length_app, length_fmap; lia).
  rewrite (insert_app_r_alt (pre ++ _)) in Hh
    by (rewrite length_app, length_fmap; lia).
  rewrite length_app, length_fmap in Hh.
  replace (S (length pre + length xs) - (length pre + length xs)) with 1
    in Hh by lia.
  rewrite Nat.sub_diag in Hh. simpl in Hh. rewrite <- app_assoc in Hh.
  apply (IH pre (moved_from v) (Obj v :: post)).
  by rewrite Hh, lookup_insert_eq.
Qed.


Lemma Erase_returns this p l c v st :
  holds st this l c → vecs st !! this = Some v → p < length l →
  ∃ it st', Erase this (begin_ v +ₚ p) st = (Ok it, st').
Proof.
  intros (v0 & spare & Hv & Hsz & Hc & Hlen & Hbuf) Hv' Hp.
  rewrite Hv in Hv'. injection Hv' as ->.
  destruct (buffer_ (data_ v)) as [|b off] eqn:Hb; [lia|].
  destruct Hbuf as [-> Hblk].
  destruct (lookup_lt_is_Some_2 l p Hp) as [y Hy].
  pose proof (take_drop_middle l p y Hy) as Hl.
  set (l1 := take p l) in *. set (l2 := drop (S p) l) in *.
  assert (length l1 = p) as Hl1 by (subst l1; rewrite length_take; lia).
  clearbody l1 l2. subst l p. clear Hy Hp.
  rewrite length_app in Hsz, Hlen. simpl in Hsz, Hlen.
  rewrite fmap_app in Hblk. simpl in Hblk. rewrite <- app_assoc in Hblk.
  simpl in Hblk.
  unfold Erase. rewrite (bind_Ok _ _ _ _ _ (load_at _ _ _ Hv)).
  unfold begin_, end_, GetAddress, RawMemory_plus.
  rewrite Hb. cbn [ptr_add].
  rewrite (bind_Ok _ _ _ _ _ (distance_at _ _ _ _ (Nat.le_add_r 0 _))).
  assert (∃ s1, std_move (Ptr b (0 + (0 + length l1 - 0) + 1))
                  (Ptr b (0 + size_ v)) (Ptr b (0 + (0 + length l1 - 0))) st
                = (Ok tt, s1)) as [s1 Hmove].
  { unfold std_move.
    assert (0 + (0 + length l1 - 0) + 1 ≤ 0 + size_ v) as Hle by lia.
    rewrite (bind_Ok _ _ _ _ _ (distance_at _ _ _ _ Hle)).
    replace (0 + size_ v - (0 + (0 + length l1 - 0) + 1)) with (length l2)
      by lia.
    replace (0 + (0 + length l1 - 0) + 1) with (length (Obj <$> l1) + 1)
      by (rewrite length_fmap; lia).
    replace (0 + (0 + length l1 - 0)) with (length (Obj <$> l1))
      by (rewrite length_fmap; lia).
    by apply (move_loop_returns b l2 (Obj <$> l1) y spare). }
  rewrite (bind_Ok _ _ _ _ _ Hmove).
  unfold std_move in Hmove.
  assert (0 + (0 + length l1 - 0) + 1 ≤ 0 + size_ v) as Hle by lia.
  rewrite (bind_Ok _ _ _ _ _ (distance_at _ _ _ _ Hle)) in Hmove.
  replace (0 + size_ v - (0 + (0 + length l1 - 0) + 1)) with (length l2)
    in Hmove by lia.
  replace (0 + (0 + length l1 - 0) + 1) with (length (Obj <$> l1) + 1)
    in Hmove by (rewrite length_fmap; lia).
  replace (0 + (0 + length l1 - 0)) with (length (Obj <$> l1)) in Hmove
    by (rewrite length_fmap; lia).
  apply (move_loop_Ok b l2 (Obj <$> l1) y spare) in Hmove as [z Hz]; [|done].
  replace (0 + size_ v) with (S (length l1 + length l2)) by lia.
  rewrite (bind_Ok _ _ _ _ _ (ptr_dec_S _ _ _)).
  replace (length l1 + length l2)
    with (length ((Obj <$> l1) ++ (Obj <$> l2)))
    by (rewrite length_app, !length_fmap; lia).
  destruct (destroy_n_returns b [z] ((Obj <$> l1) ++ (Obj <$> l2)) spare s1)
    as [s2 Hd].
  { rewrite Hz, lookup_insert_eq. by rewrite <- app_assoc. }
  rewrite (bind_Ok _ _ _ _ _ Hd).
  rewrite Hsz. replace (length l1 + S (length l2))
    with (S (length l1 + length l2)) by lia.
  cbn [decrement]. unfold bind, ret, store. eauto.
Qed.


Lemma relocate_run (R : ptr → nat → ptr → M T unit)
    bd bs xs spre spost dpre dmid dpost st :
  R = uninitialized_copy_n ∨ R = uninitialized_move_n →
  bs ≠ bd →
  heap st !! bs = Some (spre ++ (Obj <$> xs) ++ spost) →
  heap st !! bd = Some (dpre ++ dmid ++ dpost) →
  length dmid = length xs →
  ∃ st' ys,
    R (Ptr bs (length spre)) (length xs) (Ptr bd (length dpre)) st
      = (Ok tt, st') ∧
    length ys = length xs ∧
    heap st' = <[bd := dpre ++ (Obj <$> xs) ++ dpost]>
                 (<[bs := spre ++ (Obj <$> ys) ++ spost]> (heap st)).
Proof.
  intros HR Hne Hs Hd Hm.
  destruct (relocate_returns R bd bs xs spre spost dpre dmid dpost st)
    as [st' Hr]; [done..|].
  destruct (relocate_Ok R bd bs xs spre spost dpre dmid dpost st st')
    as (ys & Hys & Hh); [done..|].
  eauto.
Qed.

Lemma destroy_n_run b xs pre post st :
  heap st !! b = Some (pre ++ (Obj <$> xs) ++ post) →
  ∃ st', destroy_n (Ptr b (length pre)) (length xs) st = (Ok tt, st') ∧
         heap st' = <[b := pre ++ replicate (length xs) Raw ++ post]> (heap st).
Proof.
  intros Hb. destruct (destroy_n_returns b xs pre post st Hb) as [st' Hd].
  exists st'. split; [done|].
  rewrite <- (length_fmap Obj xs) in Hd.
  apply (destroy_n_Ok b _ pre post) in Hd; [|done].
  by rewrite length_fmap in Hd.
Qed.

Lemma RawMemory_dtor_returns d st :
  (∀ b off, buffer_ d = Ptr b off → off = 0 ∧ is_Some (heap st !! b)) →
  ∃ st', RawMemory_dtor d st = (Ok tt, st').
Proof.
  intros Hd. unfold RawMemory_dtor, Deallocate, operator_delete.
  destruct (buffer_ d) as [|b off]; [by eexists|].
  destruct (Hd b off eq_refl) as [-> [blk Hb]]. rewrite Hb. by eexists.
Qed.

Lemma Emplace_returns this p l c v a x st :
  holds st this l c → vecs st !! this = Some v → p ≤ length l →
  constructed a = Some x →
  (if decide (size_ v = 0) then 1 else size_ v * 2) ≤ avail st →
  ∃ it st', Emplace this (begin_ v +ₚ p) a st = (Ok it, st').
Proof.
  intros (v0 & spare & Hv & Hsz & Hc & Hlen & Hbuf) Hv' Hp Ha Hroom.
  rewrite Hv in Hv'. injection Hv' as ->.
  pose proof (take_drop p l) as Hl.
  set (l1 := take p l) in *. set (l2 := drop p l) in *.
  assert (length l1 = p) as Hl1 by (subst l1; rewrite length_take; lia).
  clearbody l1 l2. subst l p. clear Hp.
  rewrite length_app in Hsz, Hlen.
  unfold Emplace. rewrite (bind_Ok _ _ _ _ _ (load_at _ _ _ Hv)).
  unfold begin_, end_, GetAddress, RawMemory_plus, RawMemory_index, Capacity,
    RawMemory_Capacity.
  assert (buffer_ (data_ v) = nullptr → length l1 = 0) as Hnull.
  { intros Hnull. rewrite Hnull in Hbuf. lia. }
  assert (∀ b off, buffer_ (data_ v) = Ptr b off → off = 0) as Hoff.
  { intros b off Hb. rewrite Hb in Hbuf. by destruct Hbuf. }
  rewrite (bind_Ok _ _ _ _ _ (distance_begin _ _ _ Hnull Hoff)).
  clear Hnull Hoff.
  match goal with
  | |- ∃ it st', bind ?body _ _ = _ =>
      assert (∃ s1 v1, body st = (Ok tt, s1) ∧ vecs s1 !! this = Some v1)
        as (s1 & v1 & Hbody & Hv1)
  end.
  2:{ rewrite (bind_Ok _ _ _ _ _ Hbody).
      rewrite (bind_Ok _ _ _ _ _ (load_at _ _ _ Hv1)).
      unfold bind, store, ret. eauto. }
  destruct (decide (size_ v < capacity_ (data_ v))) as [Hfull|Hfull].
  - (* spare capacity *)
    destruct (buffer_ (data_ v)) as [|b off] eqn:Hb; [exfalso; lia|].
    destruct Hbuf as [-> Hblk]. cbn [ptr_add].
    destruct spare as [|s0 spare]; [exfalso; simpl in *; lia|].
    match goal with
    | |- ∃ s1 v1, ?body st = _ ∧ _ =>
        assert (elementwise body) as Helem by solve_elementwise;
        assert (∃ s1, body st = (Ok tt, s1)) as [s1 Hbody]
    end.
    2:{ exists s1, v. split; [done|].
        by rewrite (elementwise_vecs _ _ _ _ Helem Hbody). }
    clear Helem.
    destruct (decide (length l1 < size_ v)) as [Hend|Hend].
    + (* before the end *)
      rewrite Ha.
      destruct l2 as [|y l2 _] using rev_ind; [exfalso; simpl in *; lia|].
      rewrite length_app in Hsz, Hlen. simpl in Hsz, Hlen.
      rewrite !fmap_app in Hblk. simpl in Hblk.
      rewrite <- !app_assoc in Hblk. simpl in Hblk.
      edestruct (move_construct_at b (0 + size_ v) b (0 + (size_ v - 1)))
        as [s3 Hmc]; [exact Hblk| | exact Hblk | |].
      { rewrite app_assoc. apply list_lookup_middle.
        rewrite length_app, !length_fmap. lia. }
      { rewrite !length_app, !length_fmap. simpl. lia. }
      rewrite (bind_Ok _ _ _ _ _ Hmc).
      apply move_construct_same_Ok in Hmc as (blk & w & Hblk' & Hw & _ & Hh3).
      rewrite Hblk in Hblk'. injection Hblk' as <-.
      rewrite app_assoc in Hw, Hh3.
      rewrite list_lookup_middle in Hw
        by (rewrite length_app, !length_fmap; lia).
      injection Hw as <-.
      rewrite (insert_app_r_alt (_ ++ _)) in Hh3
        by (rewrite length_app, !length_fmap; lia).
      rewrite (insert_app_r_alt (_ ++ _)) in Hh3
        by (rewrite length_app, !length_fmap; lia).
      rewrite length_app, !length_fmap in Hh3.
      replace (0 + size_ v - (length l1 + length l2)) with 1 in Hh3 by lia.
      replace (0 + (size_ v - 1) - (length l1 + length l2)) with 0 in Hh3
        by lia.
      simpl in Hh3. rewrite <- app_assoc in Hh3.
      replace (0 + size_ v) with (S (length l1 + length l2)) by lia.
      rewrite (bind_Ok _ _ _ _ _ (ptr_dec_S _ _ _)).
      assert (∃ s4 z,
                move_backward (Ptr b (0 + length l1))
                  (Ptr b (length l1 + length l2))
                  (Ptr b (S (length l1 + length l2))) s3 = (Ok tt, s4) ∧
                heap s4 = <[b := (Obj <$> l1) ++ Obj z :: (Obj <$> l2) ++
                                   Obj y :: spare]> (heap s3))
        as (s4 & z & Hmb & Hz).
      { unfold move_backward.
        assert (0 + length l1 ≤ length l1 + length l2) as Hle by lia.
        rewrite (bind_Ok _ _ _ _ _ (distance_at _ _ _ _ Hle)).
        replace (length l1 + length l2 - (0 + length l1)) with (length l2)
          by lia.
        replace (length l1 + length l2)
          with (length (Obj <$> l1) + length l2)
          by (rewrite length_fmap; lia).
        destruct (move_backward_loop_returns b l2 (Obj <$> l1) (moved_from y)
                    (Obj y :: spare) s3) as [s4 Hmb].
        { by rewrite Hh3, lookup_insert_eq. }
        exists s4.
        destruct (move_backward_loop_Ok b l2 (Obj <$> l1) (moved_from y)
                    (Obj y :: spare) s3 s4) as [z Hz]; [|done|eauto].
        by rewrite Hh3, lookup_insert_eq. }
      rewrite (bind_Ok _ _ _ _ _ Hmb), move_assign_nothrow.
      eapply (assign_at b (0 + length l1) _ x z).
      * by rewrite Hz, lookup_insert_eq.
      * apply list_lookup_middle. by rewrite length_fmap.
    + (* at the end *)
      unfold construct_from. rewrite Ha.
      eapply construct_at; [exact Hblk|].
      rewrite length_app, length_fmap, length_app. simpl. lia.
  - (* reallocation *)
    assert (spare = []) as -> by (destruct spare; [done|simpl in *; lia]).
    rewrite app_nil_r in Hbuf.
    set (n := if decide (size_ v = 0) then 1 else size_ v * 2) in *.
    assert (size_ v < n) as Hn by (subst n; case_decide; lia).
    assert (n ≠ 0) as Hn0 by lia.
    pose proof (RawMemory_sized_run n st Hn0) as Hrun.
    rewrite decide_True in Hrun by done.
    rewrite (bind_Ok _ _ _ _ _ Hrun). clear Hrun.
    set (bn := fresh (dom (heap st))) in *.
    assert (heap st !! bn = None) as Hfresh by apply not_elem_of_dom, is_fresh.
    cbn [buffer_ capacity_ ptr_add].
    match goal with
    | |- ∃ s1 v1, bind (unwinding _ ?inner) _ ?s = _ ∧ _ =>
        set (s2 := s);
        assert (∃ s3, inner s2 = (Ok tt, s3) ∧
                      ∀ b off, buffer_ (data_ v) = Ptr b off →
                               off = 0 ∧ is_Some (heap s3 !! b))
          as (s3 & Hinner & Hold)
    end.
    2:{ rewrite (bind_Ok _ _ _ _ _ (unwinding_Ok _ _ _ _ _ Hinner)).
        unfold RawMemory_Swap. cbn [buffer_ capacity_].
        unfold bind at 1. unfold store at 1.
        match goal with
        | |- ∃ s1 v1, RawMemory_dtor ?d ?s = _ ∧ _ =>
            destruct (RawMemory_dtor_returns d s) as [s1 Hdtor]; [done|];
            pose proof (elementwise_vecs _ _ _ _
                          (elementwise_RawMemory_dtor _) Hdtor) as Hvs
        end.
        simpl in Hvs. eexists _, _. split; [exact Hdtor|].
        by rewrite Hvs, lookup_insert_eq. }
    unfold construct_from. rewrite Ha.
    assert (<[0 + length l1 := Obj x]> (replicate n (@Raw T)) =
            replicate (length l1) Raw ++ Obj x ::
              replicate (length l2) Raw ++ replicate (n - size_ v - 1) Raw)
      as Hshape.
    { replace n
        with (length l1 + S (length l2 + (n - size_ v - 1))) at 1 by lia.
      rewrite replicate_add, insert_app_r_alt
        by (rewrite length_replicate; lia).
      rewrite length_replicate.
      replace (0 + length l1 - length l1) with 0 by lia.
      simpl. by rewrite replicate_add. }
    edestruct (construct_at bn (0 + length l1) (replicate n Raw) x s2)
      as [s5 Hnewel]; [apply lookup_insert_eq|rewrite length_replicate; lia|].
    rewrite (bind_Ok _ _ _ _ _ (unwinding_Ok _ _ _ _ _ Hnewel)).
    apply construct_Ok in Hnewel as (blk & Hblk & _ & Hh5).
    subst s2. cbn [heap] in Hblk, Hh5.
    rewrite lookup_insert_eq in Hblk. injection Hblk as <-.
    rewrite insert_insert_eq, Hshape in Hh5. clear Hshape.
    destruct (buffer_ (data_ v)) as [|b off] eqn:Hb.
    + (* the vector had no block *)
      assert (l1 = []) as -> by (destruct l1; [done|simpl in *; lia]).
      assert (l2 = []) as -> by (destruct l2; [done|simpl in *; lia]).
      simpl in Hsz. rewrite Hsz. simpl.
      exists s5. split; [|done].
      unfold count_from, uninitialized_move_n, uninitialized_copy_n.
      by destruct (_ || _).
    + destruct Hbuf as [-> Hblk]. cbn [ptr_add].
      assert (b ≠ bn) as Hne by congruence.
      rewrite fmap_app in Hblk.
      set (R := if negb is_copy_constructible || is_nothrow_move_constructible
                then uninitialized_move_n else uninitialized_copy_n).
      assert (R = uninitialized_copy_n ∨ R = uninitialized_move_n) as HR
        by (subst R; destruct (_ || _); eauto).
      destruct (relocate_run R bn b l1 [] (Obj <$> l2) []
                  (replicate (length l1) Raw)
                  (Obj x :: replicate (length l2) Raw ++
                     replicate (n - size_ v - 1) Raw) s5)
        as (s6 & ys1 & Hpre & Hys1 & Hh6); [done|done|..].
      { by rewrite Hh5, lookup_insert_ne. }
      { by rewrite Hh5, lookup_insert_eq. }
      { by rewrite length_replicate. }
      destruct (relocate_run R bn b l2 (Obj <$> ys1) []
                  ((Obj <$> l1) ++ [Obj x])
                  (replicate (length l2) Raw)
                  (replicate (n - size_ v - 1) Raw) s6)
        as (s7 & ys2 & Hsuf & Hys2 & Hh7); [done|done|..].
      { rewrite Hh6, lookup_insert_ne, lookup_insert_eq by done.
        simpl. by rewrite app_nil_r. }
      { rewrite Hh6, lookup_insert_eq. simpl. by rewrite <- app_assoc. }
      { by rewrite length_replicate. }
      destruct (destroy_n_run b (ys1 ++ ys2) [] [] s7) as (s3 & Hd & Hh3).
      { rewrite Hh7, lookup_insert_ne, lookup_insert_eq by done.
        simpl. by rewrite fmap_app, !app_nil_r. }
      exists s3. split.
      * assert ((if negb is_copy_constructible || is_nothrow_move_constructible
                 then uninitialized_move_n (Ptr b 0) (length l1) (Ptr bn 0)
                 else unwinding (destroy_n (Ptr bn (0 + length l1)) 1)
                        (uninitialized_copy_n (Ptr b 0) (length l1)
                           (Ptr bn 0))) s5 = (Ok tt, s6)) as Hpre'.
        { subst R. simpl in Hpre. destruct (_ || _); [done|].
          by apply unwinding_Ok. }
        rewrite (bind_Ok _ _ _ _ _ Hpre').
        unfold count_from. rewrite decide_True by lia.
        assert (unwinding (destroy_n (Ptr bn 0) (length l1))
                  (n0 ← ret (size_ v - length l1);
                   if negb is_copy_constructible || is_nothrow_move_constructible
                   then uninitialized_move_n (Ptr b (0 + length l1)) n0
                          (Ptr bn (0 + length l1 + 1))
                   else uninitialized_copy_n (Ptr b (0 + length l1)) n0
                          (Ptr bn (0 + length l1 + 1))) s6 = (Ok tt, s7))
          as Hsuf'.
        { apply unwinding_Ok. unfold bind at 1. cbn [ret].
          replace (size_ v - length l1) with (length l2) by lia.
          replace (0 + length l1) with (length (Obj <$> ys1))
            by (rewrite length_fmap; lia).
          replace (length (Obj <$> ys1) + 1)
            with (length ((Obj <$> l1) ++ [@Obj T x]))
            by (rewrite length_app, !length_fmap; simpl; lia).
          subst R. by destruct (_ || _). }
        rewrite (bind_Ok _ _ _ _ _ Hsuf').
        replace (size_ v) with (length (ys1 ++ ys2))
          by (rewrite length_app; lia).
        exact Hd.
      * intros ? ? [= <- <-]. split; [done|].
        rewrite Hh3, lookup_insert_eq. by eexists.
Qed.


Lemma insert_then_erase_returns this p c l cap st :
  holds st this l cap → p ≤ length l →
  (if decide (length l = 0) then 1 else length l * 2) ≤ avail st →
  ∃ it st', insert_then_erase this p c st = (Ok it, st').
Proof.
  intros Hh Hp Hroom.
  pose proof Hh as (v & spare & Hv & Hsz & _).
  unfold insert_then_erase. rewrite (bind_Ok _ _ _ _ _ (load_at _ _ _ Hv)).
  assert (∃ it1 s1, insert_at this (begin_ v +ₚ p) c st = (Ok it1, s1))
    as (it1 & s1 & Hins).
  { rewrite <- Hsz in Hroom.
    destruct c as [value|value]; simpl; unfold Insert, Insert_move.
    - apply (Emplace_returns this p l cap v _ value); try done.
      simpl. by rewrite copy_nothrow.
    - apply (Emplace_returns this p l cap v _ value); try done.
      simpl. by rewrite move_nothrow. }
  rewrite (bind_Ok _ _ _ _ _ Hins).
  destruct (insert_at_Ok _ _ _ _ _ _ _ _ _ Hh Hv Hp Hins)
    as (cap1 & v1 & Hh1 & Hv1 & ->).
  apply (Erase_returns this p _ cap1 v1 s1 Hh1 Hv1).
  rewrite length_app, length_take. simpl. lia.
Qed.

End Returns.

(** * The claims *)

(** ** Observing a vector *)

Section Observations.
Context {T : Type} `{Element T}.

Lemma holds_observe (st : state T) this l c :
  holds st this l c →
  ∃ v, vecs st !! this = Some v ∧ Size v = length l ∧ Capacity v = c ∧
       cells st this = Some (Obj <$> l).
Proof.
  intros (v & spare & Hv & Hsz & Hc & Hlen & Hbuf). exists v.
  split_and!; [done..|]. unfold cells, block_at. rewrite Hv.
  destruct (buffer_ (data_ v)) as [|b off].
  - simpl. destruct l; [by rewrite take_nil|simpl in *; lia].
  - destruct Hbuf as [-> Hblk]. rewrite Hblk. simpl.
    f_equal. apply take_app_length'. by rewrite length_fmap.
Qed.

End Observations.

(** ** The scenarios of the specification, run *)

(** Three [PushBack] on an empty vector: capacities 1, 2, 4. *)
Example capacity_doubles :
  (Capacity <$> vecs (after (build 0 [1]%Z) empty_state) !! 0,
   Capacity <$> vecs (after (build 0 [1; 2]%Z) empty_state) !! 0,
   Capacity <$> vecs (after (build 0 [1; 2; 3]%Z) empty_state) !! 0)
  = (Some 1, Some 2, Some 4).
Proof. vm_compute. reflexivity. Qed.

(** [[1, 2, 3]], then [Insert] of 42 at position 1, then [Erase] at
    position 0: [[1, 42, 2, 3]], then [[42, 2, 3]]. *)
Example insert_erase_scenario :
  let st1 := after (Insert 0 (Ptr 2 1) 42%Z) vector_123 in
  let st2 := after (Erase 0 (Ptr 2 0)) st1 in
  cells st1 0 = Some (Obj <$> [1; 42; 2; 3]%Z) ∧
  cells st2 0 = Some (Obj <$> [42; 2; 3]%Z).
Proof. vm_compute. split; reflexivity. Qed.

(** ** Ownership transfer of [RawMemory] *)

(** C1.  A moved-to [RawMemory] should take over the block pointer and the
    capacity of its source, touch no element, and leave the source without a
    block.  The code does none of it.  The move constructor copies the
    capacity, leaves its own pointer null and relocates elements through it:
    from a source of capacity one that is undefined behaviour, and the source
    still owns its block.  The move assignment into an object with a block of
    its own keeps its own pointer, constructs the source's elements in it
    (one [Construct] event per element), and the source keeps its pointer and
    its block, which its destructor then releases. *)
Theorem RawMemory_move_transfers_nothing :
  let source := mkRaw (Ptr 0 0) 1 in
  let target := mkRaw (Ptr 1 0) 1 in
  (RawMemory_move source raw_with_seven = (UB, raw_with_seven) ∧
   heap raw_with_seven !! 0 = Some [Obj 7%Z]) ∧
  (let st' := after (RawMemory_move_assign target source) raw_pair in
   outcome_of (RawMemory_move_assign target source) raw_pair = Ok target ∧
   buffer_ target ≠ buffer_ source ∧
   new_events raw_pair st' = [Construct (Ptr 1 0)] ∧
   heap st' !! 1 = Some [Obj 7%Z] ∧
   heap st' !! 0 = Some [Obj 7%Z] ∧
   heap (after (RawMemory_dtor source) st') !! 0 = None).
Proof. vm_compute. split_and!; done. Qed.

(** ** Copy assignment into sufficient capacity *)

(** C2.  Assigning [[7, 8, 9]] to [[1]] of capacity three should assign
    over cell 0 and copy-construct cells 1 and 2.  The code assigns cell 0,
    then copy-constructs the first two source elements at cells 0 and 1
    again ([uninitialized_copy_n] starts at the beginning of both blocks), so
    cell 2 stays raw although the size becomes three.  Assigning [[9]] to
    [[1, 2, 3]] should destroy cells 1 and 2; the code destroys cells 0 and 1
    ([destroy_n] starts at the beginning of the block) and then assigns to
    the destroyed cell 0, which is undefined. *)
Theorem operator_assign_reuse_misplaces :
  (let st' := after (operator_assign 0 1) vectors_1_789 in
   outcome_of (operator_assign 0 1) vectors_1_789 = Ok tt ∧
   new_events vectors_1_789 st' =
     [Assign (Ptr 0 0); Construct (Ptr 0 0); Construct (Ptr 0 1)] ∧
   size_ <$> vecs st' !! 0 = Some 3 ∧
   cells st' 0 = Some [Obj 7%Z; Obj 8%Z; Raw] ∧
   cells st' 1 = Some [Obj 7%Z; Obj 8%Z; Obj 9%Z]) ∧
  (let st' := after (operator_assign 0 1) vectors_123_9 in
   outcome_of (operator_assign 0 1) vectors_123_9 = UB ∧
   new_events vectors_123_9 st' = [Destroy (Ptr 2 0); Destroy (Ptr 2 1)] ∧
   heap st' !! 2 = Some [Raw; Raw; Obj 3%Z; Raw]).
Proof. vm_compute. split_and!; done. Qed.

(** ** [Resize] *)

(** C3.  [[42]] after [Resize(3)] should be [[42, 0, 0]]: the code reserves
    three cells, then value-constructs two elements at cells 0 and 1 instead
    of cells 1 and 2, so the vector reads [0, 0] followed by a raw cell.
    [[1, 2, 3]] after [Resize(1)] should keep cell 0 and destroy cells 1
    and 2: the code destroys cells 0 and 1, so the one remaining cell of the
    vector is raw and the element 3 is never destroyed. *)
Theorem Resize_works_on_the_front :
  (let st' := after (Resize 0 3) vector_42 in
   outcome_of (Resize 0 3) vector_42 = Ok tt ∧
   size_ <$> vecs st' !! 0 = Some 3 ∧
   cells st' 0 = Some [Obj 0%Z; Obj 0%Z; Raw]) ∧
  (let st' := after (Resize 0 1) vector_123 in
   outcome_of (Resize 0 1) vector_123 = Ok tt ∧
   new_events vector_123 st' = [Destroy (Ptr 2 0); Destroy (Ptr 2 1)] ∧
   size_ <$> vecs st' !! 0 = Some 1 ∧
   cells st' 0 = Some [Raw] ∧
   heap st' !! 2 = Some [Raw; Raw; Obj 3%Z; Raw]).
Proof. vm_compute. split_and!; done. Qed.

(** ** [PopBack] *)

(** C4.  [PopBack] on [[1, 2, 3]] should destroy cell 2 and leave
    [[1, 2]].  The code destroys the element at [data_.GetAddress()], cell
    0: the vector of size two that remains starts with a raw cell, and the
    last element stays alive beyond the size. *)
Theorem PopBack_destroys_the_front :
  let st' := after (PopBack 0) vector_123 in
  outcome_of (PopBack 0) vector_123 = Ok tt ∧
  new_events vector_123 st' = [Destroy (Ptr 2 0)] ∧
  size_ <$> vecs st' !! 0 = Some 2 ∧
  cells st' 0 = Some [Raw; Obj 2%Z] ∧
  heap st' !! 2 = Some [Raw; Obj 2%Z; Obj 3%Z; Raw].
Proof. vm_compute. split_and!; done. Qed.

(** ** Failure while a reallocating [Emplace] relocates the suffix *)

(** C5.  On the full vector [[1, -1]] of [Fragile] elements, inserting 5 at
    position 1 allocates block 2, constructs the new element at its cell 1,
    copies the prefix to cell 0, and the copy of the suffix element throws.
    Every element built in the new block should be destroyed before the
    exception leaves.  The handler destroys the prefix only: the new element
    at cell 1 is never destroyed (no [Destroy (Ptr 2 1)]), and the block is
    released with it.  The old array is intact, as the claim says. *)
Theorem Emplace_suffix_failure_leaks_the_new_element :
  let call := Insert 0 (Ptr 1 1) (mkFragile 5) in
  let st' := after call fragile_full in
  outcome_of call fragile_full = Throw ∧
  new_events fragile_full st' =
    [Construct (Ptr 2 1); Construct (Ptr 2 0); Destroy (Ptr 2 0)] ∧
  (Destroy (Ptr 2 1) ∉ new_events fragile_full st') ∧
  heap st' !! 2 = None ∧
  vecs st' = vecs fragile_full ∧
  cells st' 0 = Some [Obj (mkFragile 1); Obj (mkFragile (-1))].
Proof.
  vm_compute. split_and!; try done.
  intros Hin. repeat (apply elem_of_cons in Hin as [Hin|Hin]; [done|]).
  by apply elem_of_nil in Hin.
Qed.

(** ** Self-assignment *)

Section SelfAssignment.
Context {T : Type} `{Element T}.

(** C10.  Copy-assigning or move-assigning a vector to itself returns at
    the test [this != &rhs]: the whole state is the one before the call,
    the object, its block and the trace of element operations included. *)
Theorem self_assignment_is_a_no_op (this : nat) (st : state T) :
  operator_assign this this st = (Ok tt, st) ∧
  operator_assign_move this this st = (Ok tt, st).
Proof.
  unfold operator_assign, operator_assign_move.
  destruct (decide (this ≠ this)) as [Hne|_]; [by destruct Hne|done].
Qed.

End SelfAssignment.

(** ** The invariant [size_ <= capacity_] *)

Section InvariantClaim.
Context {T : Type} `{Element T}.

(** C9.  Run any sequence of operations (constructors, assignments, [Swap],
    [Reserve], [Resize], the appends, [PopBack], [Insert], [Emplace],
    [Erase]) from a state in which every vector object has
    [size_ <= capacity_], going on after each operation that throws: every
    vector object of the state the sequence leaves has
    [size_ <= capacity_].  In particular each single operation preserves the
    invariant, whether it returns or throws. *)
Theorem size_le_capacity_invariant (ops : list (operation T)) (st : state T) :
  size_le_capacity st →
  size_le_capacity (after (run_operations ops) st).
Proof. intros Hinv. by apply run_operations_size_le_capacity. Qed.

End InvariantClaim.

Lemma size_le_capacity_invariant_witness :
  size_le_capacity (empty_state (T:=Z)) ∧
  size_le_capacity
    (after (run_operations
              [OpSized 0 2; OpPushBack 0 5%Z; OpCopy 1 0;
               OpInsert 0 (Ptr 1 1) 7%Z; OpEmplaceBack 1 (ByArgs (Some 3%Z));
               OpErase 1 (Ptr 3 0); OpReserve 0 500; OpReserve 0 9;
               OpAssignMove 1 0; OpAssign 0 1; OpResize 1 12; OpPopBack 1])
       (empty_state (T:=Z))).
Proof.
  assert (size_le_capacity (empty_state (T:=Z))) as Hempty.
  { intros a v Hv. vm_compute in Hv. discriminate. }
  split; [exact Hempty|].
  exact (size_le_capacity_invariant _ _ Hempty).
Defined.

(** ** The strong guarantee of a reallocating append *)

Section TraceGrows.
Context {T : Type} `{Element T}.

Lemma trace_grows_elementwise {A} (m : M T A) :
  elementwise m → trace_grows m.
Proof. intros Hm st. apply Hm. Qed.

Lemma trace_grows_same {A} (m : M T A) :
  (∀ st, log (m st).2 = log st) → trace_grows m.
Proof. intros Hm st. exists []. by rewrite Hm, app_nil_r. Qed.

Lemma trace_grows_bind {A B} (m : M T A) (k : A → M T B) :
  trace_grows m → (∀ a, trace_grows (k a)) → trace_grows (bind m k).
Proof.
  intros Hm Hk st. destruct (Hm st) as [e1 Hl]. unfold bind.
  destruct (m st) as [[a| |] st1]; simpl in *; [|eauto..].
  destruct (Hk a st1) as [e2 Hl'].
  exists (e1 ++ e2). by rewrite Hl', Hl, app_assoc.
Qed.

Lemma trace_grows_load this : trace_grows (load (T:=T) this).
Proof. apply trace_grows_same. intros st. unfold load. by case_match. Qed.

Lemma trace_grows_store this v : trace_grows (store (T:=T) this v).
Proof. by apply trace_grows_same. Qed.

Lemma wp_trace_grows {A} (m : M T A) (L : list event) Q st :
  trace_grows m → (∃ evs, log st = L ++ evs) →
  (∀ o s, (∃ evs, log s = L ++ evs) → Q o s) → wp m Q st.
Proof.
  intros Hm [e1 Hl] HQ. apply HQ. destruct (Hm st) as [e2 Hl'].
  exists (e1 ++ e2). by rewrite Hl', Hl, app_assoc.
Qed.

End TraceGrows.

Ltac solve_trace_grows :=
  repeat (intros; cbv beta;
          first [ apply trace_grows_load
                | apply trace_grows_store
                | apply trace_grows_elementwise; solve [solve_elementwise]
                | apply trace_grows_bind ]).

Section StrongGuarantee.
Context {T : Type} `{Element T}.

Lemma RawMemory_sized_fresh n (st : state T) :
  n ≠ 0 →
  log (RawMemory_sized n st).2 = log st ∧
  match (RawMemory_sized n st).1 with
  | Ok d => ∃ b, heap st !! b = None ∧ d = mkRaw (Ptr b 0) n
  | _ => True
  end.
Proof.
  intros Hn. unfold RawMemory_sized, Allocate, operator_new, bind, ret.
  rewrite decide_True by done. case_decide; simpl; [|done].
  split; [done|]. exists (fresh (dom (heap st))).
  split; [|done]. apply not_elem_of_dom, is_fresh.
Qed.

Lemma construct_from_log p a (st : state T) :
  match (construct_from p a st).1 with
  | Ok _ => log (construct_from p a st).2 = log st ++ [Construct p]
  | _ => log (construct_from p a st).2 = log st
  end.
Proof.
  unfold construct_from, construct, bind, set_slot, emit, throw.
  destruct (constructed a); [|done].
  destruct p as [|b off]; [done|].
  destruct (heap st !! b); [|done]. by case_decide.
Qed.

Lemma RawMemory_dtor_log d (st : state T) :
  log (RawMemory_dtor d st).2 = log st.
Proof.
  unfold RawMemory_dtor, Deallocate, operator_delete.
  by repeat case_match.
Qed.

(** A full vector whose new element cannot be constructed: the call throws
    and the state is the one before the call. *)
Lemma append_full_throws this v a (st : state T) :
  vecs st !! this = Some v → Size v = Capacity v →
  constructed a = None →
  append this a st = (Throw, st).
Proof.
  intros Hv Hfull Ha. unfold append.
  rewrite (bind_Ok _ _ _ _ _ (load_at _ _ _ Hv)).
  apply bind_Throw. rewrite decide_False by (by intros ?).
  set (n := if decide (size_ v = 0) then 1 else _).
  assert (n ≠ 0) as Hn by (subst n; case_decide; lia).
  pose proof (RawMemory_sized_run n st Hn) as Hrun.
  case_decide as Hmem; [|by apply bind_Throw].
  rewrite (bind_Ok _ _ _ _ _ Hrun). apply bind_Throw.
  set (b := fresh (dom (heap st))).
  assert (heap st !! b = None) as Hb by apply not_elem_of_dom, is_fresh.
  eapply unwinding_Throw.
  - apply bind_Throw. unfold construct_from. by rewrite Ha.
  - unfold RawMemory_dtor, Deallocate, operator_delete. cbn [buffer_ heap].
    rewrite lookup_insert_eq. f_equal.
    destruct st as [h av vs lg]. cbn in *. f_equal.
    + by apply delete_insert_id.
    + rewrite length_replicate. lia.
Qed.

(** In every run of an append on a full vector, the first event the call
    adds to the trace, if it adds any, is the construction of the new
    element at cell [size_] of a block that did not exist before. *)
Lemma append_full_constructs_first this v a (st : state T) :
  vecs st !! this = Some v → Size v = Capacity v →
  log (after (append this a) st) = log st ∨
  ∃ b evs, heap st !! b = None ∧
           log (after (append this a) st)
             = log st ++ Construct (Ptr b (Size v)) :: evs.
Proof.
  intros Hv Hfull.
  set (Post := λ s : state T,
         log s = log st ∨
         ∃ b evs, heap st !! b = None ∧
                  log s = log st ++ Construct (Ptr b (Size v)) :: evs).
  change (wp (append this a) (λ _ s, Post s) st).
  unfold append. apply wp_bind, wp_load; [|congruence].
  intros ? [= <-]%(eq_trans (eq_sym Hv)).
  rewrite decide_False by (by intros ?).
  set (n := if decide (size_ v = 0) then 1 else _).
  assert (n ≠ 0) as Hn by (subst n; case_decide; lia).
  apply wp_bind, wp_bind. unfold wp at 1.
  rewrite (RawMemory_sized_run n st Hn).
  case_decide as Hmem; cbn [fst snd]; [|by left].
  set (b := fresh (dom (heap st))).
  assert (heap st !! b = None) as Hb by apply not_elem_of_dom, is_fresh.
  match goal with |- wp _ _ ?s => set (s1 := s) end.
  apply wp_bind, wp_unwinding, wp_bind. unfold wp at 1.
  pose proof (construct_from_log (RawMemory_plus (mkRaw (Ptr b 0) n) (size_ v))
                a s1) as Hc.
  destruct (construct_from _ a s1) as [[[]| |] s2]; cbn [fst snd] in *.
  - assert (∀ s : state T,
              (∃ evs, log s = (log st ++ [Construct (Ptr b (0 + size_ v))])
                                ++ evs) → Post s) as Hpost.
    { intros s [evs Hs]. right. exists b, evs. split; [done|].
      by rewrite Hs, <- app_assoc. }
    assert (∃ evs, log s2 = (log st ++ [Construct (Ptr b (0 + size_ v))])
                              ++ evs) as Hg.
    { exists []. by rewrite app_nil_r. }
    repeat first
      [ by apply Hpost
      | eapply wp_trace_grows;
        [solve_trace_grows | exact Hg | clear Hg; intros [?| |] ? Hg;
                                        cbv beta iota] ].
  - unfold wp.
    pose proof (RawMemory_dtor_log (mkRaw (Ptr b 0) n) s2) as Hd.
    destruct (RawMemory_dtor _ s2) as [[[]| |] s3]; cbn [fst snd] in *;
      left; by rewrite Hd, Hc.
  - left. by rewrite Hc.
Qed.

End StrongGuarantee.

Section StrongGuaranteeClaim.
Context {T : Type} `{Element T}.

Lemma EmplaceBack_after this args (st : state T) :
  after (EmplaceBack this args) st = after (append this args) st.
Proof.
  unfold after, EmplaceBack, bind, load, ret.
  destruct (append this args st) as [[[]| |] s]; [|done..].
  by destruct (vecs s !! this).
Qed.

Lemma EmplaceBack_throws this args (st : state T) :
  append this args st = (Throw, st) →
  EmplaceBack this args st = (Throw, st).
Proof. intros Ha. unfold EmplaceBack. by apply bind_Throw. Qed.

(** C7.  On a full vector ([size_ == Capacity()]), if the constructor of
    the new element throws, [EmplaceBack], [PushBack(T&&)] and
    [PushBack(const T&)] throw and leave the whole state as it was before
    the call: the object, its block and elements, the allocator and the
    trace.  The reason is the order: in every run on a full vector, the
    first element operation of the call is the construction of the new
    element at cell [size_] of a fresh block, before any existing element
    is relocated. *)
Theorem reallocating_append_strong_guarantee this v (st : state T) :
  vecs st !! this = Some v → Size v = Capacity v →
  (∀ args, constructed args = None →
           EmplaceBack this args st = (Throw, st)) ∧
  (∀ value, move_throws value = true →
            PushBack_move this value st = (Throw, st)) ∧
  (∀ value, copy_throws value = true →
            PushBack this value st = (Throw, st)) ∧
  (∀ args,
     let st' := after (EmplaceBack this args) st in
     log st' = log st ∨
     ∃ b evs, heap st !! b = None ∧
              log st' = log st ++ Construct (Ptr b (Size v)) :: evs) ∧
  (∀ c,
     let st' := after (push_back this c) st in
     log st' = log st ∨
     ∃ b evs, heap st !! b = None ∧
              log st' = log st ++ Construct (Ptr b (Size v)) :: evs).
Proof.
  intros Hv Hfull. split_and!.
  - intros args Hargs.
    by apply EmplaceBack_throws, (append_full_throws this v).
  - intros value Hthrow. apply (append_full_throws this v); [done..|].
    simpl. by rewrite Hthrow.
  - intros value Hthrow. apply (append_full_throws this v); [done..|].
    simpl. by rewrite Hthrow.
  - intros args. simpl. rewrite EmplaceBack_after.
    by apply append_full_constructs_first.
  - intros [value|value]; simpl;
      by apply append_full_constructs_first.
Qed.

End StrongGuaranteeClaim.

Lemma reallocating_append_strong_guarantee_witness :
  let v := mkVec (mkRaw (Ptr 1 0) 2) 2 in
  (vecs fragile_full !! 0 = Some v ∧ Size v = Capacity v) ∧
  EmplaceBack 0 (ByArgs None) fragile_full = (Throw, fragile_full) ∧
  PushBack 0 (mkFragile (-3)) fragile_full = (Throw, fragile_full).
Proof.
  assert (vecs fragile_full !! 0 = Some (mkVec (mkRaw (Ptr 1 0) 2) 2)) as Hv
    by (vm_compute; reflexivity).
  assert (Size (mkVec (mkRaw (Ptr 1 0) 2) 2)
          = Capacity (mkVec (mkRaw (Ptr 1 0) 2) 2)) as Hfull
    by reflexivity.
  destruct (reallocating_append_strong_guarantee 0 _ fragile_full Hv Hfull)
    as (Hemplace & _ & Hcopy & _).
  split; [by split|]. split.
  - apply Hemplace. reflexivity.
  - apply Hcopy. reflexivity.
Defined.

(** ** Sequences of [PushBack] *)

Section PushBackClaim.
Context {T : Type} `{Element T}.

Lemma push_back_Ok this c l cap (st st' : state T) :
  holds st this l cap →
  push_back this c st = (Ok tt, st') →
  ∃ cap', holds st' this (l ++ [value_of c]) cap'.
Proof.
  intros Hh Hr.
  assert (∃ a, append this a st = (Ok tt, st') ∧
               ∀ x, constructed a = Some x → x = value_of c)
    as (a & Ha & Hx).
  { destruct c as [value|value]; simpl in *.
    - exists (ByCopy value). split; [done|]. simpl. intros x.
      by destruct (copy_throws value); intros [= <-].
    - exists (ByMove value). split; [done|]. simpl. intros x.
      by destruct (move_throws value); intros [= <-]. }
  destruct (append_Ok _ _ _ _ _ _ Hh Ha) as (x & cap' & Hc & Hh' & _).
  rewrite (Hx x Hc) in Hh'. eauto.
Qed.

Lemma push_back_all_Ok this calls : ∀ l cap (st st' : state T),
  holds st this l cap →
  push_back_all this calls st = (Ok tt, st') →
  ∃ cap', holds st' this (l ++ (value_of <$> calls)) cap'.
Proof.
  induction calls as [|c calls IH]; intros l cap st st' Hh; simpl.
  - intros [= <-]. rewrite app_nil_r. eauto.
  - intros ([] & s1 & Hc & Hr)%bind_inv_Ok.
    destruct (push_back_Ok _ _ _ _ _ _ Hh Hc) as [cap1 Hh1].
    destruct (IH _ _ _ _ Hh1 Hr) as [cap' Hh'].
    exists cap'. by rewrite <- app_assoc in Hh'.
Qed.

(** C6, amended.  Start from a vector that holds the elements [l] and call
    [PushBack] any number of times, through either overload.  If all the
    calls return, the vector has [length l] plus the number of calls
    elements, at least as much capacity, and its elements are those of [l]
    followed by the pushed values in call order.  From the empty vector
    the size is the number of calls. *)
Theorem push_back_all_appends this calls l cap (st st' : state T) :
  holds st this l cap →
  push_back_all this calls st = (Ok tt, st') →
  ∃ v', vecs st' !! this = Some v' ∧
        Size v' = length l + length calls ∧
        Capacity v' ≥ length l + length calls ∧
        cells st' this = Some (Obj <$> (l ++ (value_of <$> calls))).
Proof.
  intros Hh Hr.
  destruct (push_back_all_Ok _ _ _ _ _ _ Hh Hr) as [cap' Hh'].
  pose proof (holds_capacity _ _ _ _ Hh') as Hcap.
  destruct (holds_observe _ _ _ _ Hh') as (v' & Hv' & Hsz & Hc & Hcells).
  rewrite length_app, length_fmap in Hsz, Hcap.
  exists v'. split_and!; [done|done|lia|done].
Qed.

End PushBackClaim.

Lemma push_back_all_appends_witness :
  let st' := after (push_back_all 0 [Lvalue 4%Z; Rvalue 5%Z]) vector_123 in
  (holds vector_123 0 [1; 2; 3]%Z 4 ∧
   push_back_all 0 [Lvalue 4%Z; Rvalue 5%Z] vector_123 = (Ok tt, st')) ∧
  ∃ v', vecs st' !! 0 = Some v' ∧
        Size v' = 5 ∧ Capacity v' ≥ 5 ∧
        cells st' 0 = Some (Obj <$> [1; 2; 3; 4; 5]%Z).
Proof.
  assert (holds vector_123 0 [1; 2; 3]%Z 4) as Hh.
  { exists (mkVec (mkRaw (Ptr 2 0) 4) 3), [Raw].
    split_and!; [vm_compute; reflexivity|reflexivity..|].
    split; [reflexivity|]. vm_compute. reflexivity. }
  assert (push_back_all 0 [Lvalue 4%Z; Rvalue 5%Z] vector_123
          = (Ok tt, after (push_back_all 0 [Lvalue 4%Z; Rvalue 5%Z])
                      vector_123)) as Hr
    by (vm_compute; reflexivity).
  split; [by split|].
  exact (push_back_all_appends 0 _ _ _ _ _ Hh Hr).
Defined.

(** C6 as stated: from a vector that already holds an element, one
    successful [PushBack] leaves size two, not one. *)
Lemma push_back_size_counts_old_elements :
  ¬ (∀ (st st' : state Z) this l cap calls v',
       holds st this l cap →
       push_back_all this calls st = (Ok tt, st') →
       vecs st' !! this = Some v' →
       Size v' = length calls).
Proof.
  intros Hall.
  specialize (Hall vector_42
                (after (push_back_all 0 [Lvalue 7%Z]) vector_42)
                0 [42%Z] 1 [Lvalue 7%Z] (mkVec (mkRaw (Ptr 1 0) 2) 2)).
  assert (2 = 1) as Habsurd; [|discriminate].
  apply Hall.
  - exists (mkVec (mkRaw (Ptr 0 0) 1) 1), [].
    split_and!; [vm_compute; reflexivity|reflexivity..|].
    split; [reflexivity|]. vm_compute. reflexivity.
  - vm_compute. reflexivity.
  - vm_compute. reflexivity.
Qed.

(** ** [Insert] followed by [Erase] *)

Section InsertEraseClaim.
Context {T : Type} `{Element T}.

(** C8.  On a vector that holds the elements [l], for a position
    [p <= length l] and a value inserted through either overload of
    [Insert]: whenever the insertion and the erasure at the iterator it
    returned both return, the vector holds [l] again, with the same size and
    the same elements in the same order.  And they do return when no
    constructor or assignment of the element type throws and the allocator
    has room for the block a full vector asks for. *)
Theorem insert_then_erase_restores this p c l cap (st : state T) :
  holds st this l cap → p ≤ length l →
  (∀ it st',
     insert_then_erase this p c st = (Ok it, st') →
     ∃ v', vecs st' !! this = Some v' ∧
           Size v' = length l ∧
           cells st' this = Some (Obj <$> l)) ∧
  ((∀ v : T, copy_throws v = false) →
   (∀ v : T, move_throws v = false) →
   (∀ v : T, move_assign_throws v = false) →
   (if decide (length l = 0) then 1 else length l * 2) ≤ avail st →
   ∃ it st', insert_then_erase this p c st = (Ok it, st')).
Proof.
  intros Hh Hp. split.
  - intros it st' Hr. unfold insert_then_erase in Hr.
    apply bind_inv_Ok in Hr as (v & ? & [-> Hv]%load_Ok & Hr).
    apply bind_inv_Ok in Hr as (it1 & s1 & Hins & Hers).
    destruct (insert_at_Ok _ _ _ _ _ _ _ _ _ Hh Hv Hp Hins)
      as (cap1 & v1 & Hh1 & Hv1 & ->).
    assert (length (take p l) = p) as Htake by (rewrite length_take; lia).
    apply (Erase_Ok _ _ _ _ _ _ _ _ Hh1 Hv1) in Hers.
    2:{ rewrite length_app, Htake. simpl. lia. }
    assert (take p (take p l ++ value_of c :: drop p l) ++
              drop (S p) (take p l ++ value_of c :: drop p l) = l) as Hl.
    { rewrite take_app_length' by done.
      rewrite cons_middle, app_assoc.
      rewrite drop_app_length' by (rewrite length_app, Htake; simpl; lia).
      apply take_drop. }
    rewrite Hl in Hers.
    destruct (holds_observe _ _ _ _ Hers) as (v' & Hv' & Hsz & _ & Hcells).
    eauto.
  - intros Hcopy Hmove Hassign Hroom.
    by apply (insert_then_erase_returns Hcopy Hmove Hassign this p c l cap).
Qed.

End InsertEraseClaim.

Lemma insert_then_erase_restores_witness :
  (holds vector_123 0 [1; 2; 3]%Z 4 ∧ 1 ≤ length [1; 2; 3]%Z) ∧
  ∃ it st',
    insert_then_erase 0 1 (Lvalue 42%Z) vector_123 = (Ok it, st') ∧
    ∃ v', vecs st' !! 0 = Some v' ∧
          Size v' = 3 ∧
          cells st' 0 = Some (Obj <$> [1; 2; 3]%Z).
Proof.
  assert (holds vector_123 0 [1; 2; 3]%Z 4) as Hh.
  { exists (mkVec (mkRaw (Ptr 2 0) 4) 3), [Raw].
    split_and!; [vm_compute; reflexivity|reflexivity..|].
    split; [reflexivity|]. vm_compute. reflexivity. }
  assert (1 ≤ length [1; 2; 3]%Z) as Hp by (simpl; lia).
  split; [by split|].
  destruct (insert_then_erase_restores 0 1 (Lvalue 42%Z) _ _ _ Hh Hp)
    as [Hrestored Hreturns].
  destruct Hreturns as (it & st' & Hr).
  - reflexivity.
  - reflexivity.
  - reflexivity.
  - vm_compute. lia.
  - exists it, st'. split; [exact Hr|]. exact (Hrestored it st' Hr).
Defined.
